(** * Cpp_Laboratory_Work: a shallow embedding of the laboratory programs

    Each laboratory file of the repository is a closed console program over
    one in-memory collection.  Every [Module] below embeds the functions of
    one file (the module is named after the file) and states the properties
    of that program.

    Conventions shared by all modules:
    - [int] is a [Z] kept in the 32-bit two's complement range by [Std.to_int];
    - [std::string] is [string], [std::vector<T>] is [list T], [std::map<K,V>]
      is [gmap K V], a possibly null owning pointer is an [option];
    - [double] is IEEE-754 binary64, i.e. [spec_float] with [prec = 53] and
      [emax = 1024];
    - a member function that may throw runs in the monad [Std.M], which
      threads the object state and stops at the first [throw];
    - [std::sort] is specified by its contract only (class [Std.Sort]); one
      instance, an insertion sort, shows the contract is met and makes every
      definition executable. *)

From Stdlib Require Import ZArith String Permutation Sorted SpecFloat.
From stdpp Require Import base decidable option list strings gmap fin_maps sorting.

Local Open Scope Z_scope.

(** ** The part of the C++ standard library the programs rely on *)
Module Std.

Definition INT_MIN : Z := - 2 ^ 31.
Definition INT_MAX : Z := 2 ^ 31 - 1.

(** Conversion to [int]: reduction modulo 2^32 into [INT_MIN .. INT_MAX]. *)
Definition to_int (z : Z) : Z := (z + 2 ^ 31) mod 2 ^ 32 - 2 ^ 31.

Definition is_int (z : Z) : Prop := INT_MIN ≤ z ≤ INT_MAX.

(** Outcome of a call: a returned value or a thrown exception. *)
Inductive result (E A : Type) : Type :=
| Ok (a : A)
| Throw (e : E).
Global Arguments Ok {E A} a.
Global Arguments Throw {E A} e.

(** Member functions: the object state goes in, the outcome and the state
    the object is left in come out. *)
Definition M (St E A : Type) : Type := St → result E A * St.

Definition ret {St E A} (a : A) : M St E A := λ s, (Ok a, s).
Definition throw {St E A} (e : E) : M St E A := λ s, (Throw e, s).
Definition bind {St E A B} (m : M St E A) (k : A → M St E B) : M St E B :=
  λ s, match m s with
       | (Ok a, s') => k a s'
       | (Throw e, s') => (Throw e, s')
       end.
Definition get {St E} : M St E St := λ s, (Ok s, s).
Definition put {St E} (s' : St) : M St E unit := λ _, (Ok tt, s').

Global Instance M_ret {St E} : MRet (M St E) := λ A, @ret St E A.
Global Instance M_bind {St E} : MBind (M St E) := λ A B k m, bind m k.

(** State an object is left in by a call, whether it returned or threw. *)
Definition exec {St E A} (m : M St E A) (s : St) : St := snd (m s).

(** [std::find_if]: position of the first element satisfying [p]; [None]
    stands for the [end()] iterator. *)
Fixpoint find_if {A} (p : A → bool) (l : list A) : option nat :=
  match l with
  | [] => None
  | x :: l' => if p x then Some 0%nat else S <$> find_if p l'
  end.

(** The comparator requirement of [std::sort]: a strict weak ordering. *)
Record StrictWeakOrder {A} (cmp : A → A → bool) : Prop := {
  swo_irrefl : ∀ x, cmp x x = false;
  swo_trans : ∀ x y z, cmp x y = true → cmp y z = true → cmp x z = true;
  swo_incomp : ∀ x y z,
    cmp x y = false → cmp y x = false →
    cmp y z = false → cmp z y = false →
    cmp x z = false ∧ cmp z x = false
}.

(** [sorted_by cmp l]: no element of [l] is ordered by [cmp] before an
    element that precedes it. *)
Definition sorted_by {A} (cmp : A → A → bool) (l : list A) : Prop :=
  StronglySorted (λ x y, cmp y x = false) l.

(** The contract of [std::sort(first, last, comp)]: the range is rearranged
    (a permutation) into an order sorted with respect to [comp].  The order
    of equivalent elements is not specified. *)
Class Sort : Type := {
  sort : ∀ A : Type, (A → A → bool) → list A → list A;
  sort_perm : ∀ A cmp l, StrictWeakOrder cmp → sort A cmp l ≡ₚ l;
  sort_sorted : ∀ A cmp l, StrictWeakOrder cmp → sorted_by cmp (sort A cmp l)
}.
Global Arguments sort {_} {A} cmp l.

(** One implementation meeting the contract. *)
Fixpoint insert_by {A} (cmp : A → A → bool) (x : A) (l : list A) : list A :=
  match l with
  | [] => [x]
  | y :: l' => if cmp x y then x :: y :: l' else y :: insert_by cmp x l'
  end.

Definition insertion_sort {A} (cmp : A → A → bool) (l : list A) : list A :=
  foldr (insert_by cmp) [] l.

Lemma insert_by_perm {A} (cmp : A → A → bool) x l :
  insert_by cmp x l ≡ₚ x :: l.
Proof.
  induction l as [|y l IH]; simpl; [done|].
  destruct (cmp x y); [done|].
  rewrite IH. apply Permutation_swap.
Qed.

Lemma insertion_sort_perm {A} (cmp : A → A → bool) l :
  insertion_sort cmp l ≡ₚ l.
Proof.
  induction l as [|x l IH]; simpl; [done|].
  rewrite insert_by_perm. by rewrite IH.
Qed.

Lemma insert_by_sorted {A} (cmp : A → A → bool) x l :
  StrictWeakOrder cmp → sorted_by cmp l → sorted_by cmp (insert_by cmp x l).
Proof.
  intros Hswo. unfold sorted_by.
  induction l as [|y l IH]; intros Hl; simpl.
  - repeat constructor.
  - apply StronglySorted_inv in Hl as [Hl Hy].
    destruct (cmp x y) eqn:Hxy.
    + constructor; [by constructor|].
      constructor.
      * destruct (cmp y x) eqn:Hyx; [|done].
        pose proof (swo_trans cmp Hswo _ _ _ Hxy Hyx) as Hxx.
        by rewrite (swo_irrefl cmp Hswo) in Hxx.
      * eapply Forall_impl; [exact Hy|]. intros z Hz; simpl in Hz.
        destruct (cmp z x) eqn:Hzx; [|done].
        pose proof (swo_trans cmp Hswo _ _ _ Hzx Hxy) as Hzy. congruence.
    + constructor; [by apply IH|].
      rewrite insert_by_perm. by constructor.
Qed.

Lemma insertion_sort_sorted {A} (cmp : A → A → bool) l :
  StrictWeakOrder cmp → sorted_by cmp (insertion_sort cmp l).
Proof.
  intros Hswo. induction l as [|x l IH]; simpl.
  - constructor.
  - by apply insert_by_sorted.
Qed.

Definition insertion : Sort := {|
  sort := @insertion_sort;
  sort_perm := λ A cmp l _, insertion_sort_perm cmp l;
  sort_sorted := @insertion_sort_sorted
|}.

Lemma to_int_range z : is_int (to_int z).
Proof.
  unfold is_int, to_int, INT_MIN, INT_MAX.
  pose proof (Z.mod_pos_bound (z + 2 ^ 31) (2 ^ 32)). lia.
Qed.

(** The two comparators the programs hand to [std::sort] on integers. *)
Lemma swo_ltb : StrictWeakOrder Z.ltb.
Proof. split; intros; lia. Qed.

Lemma swo_gtb : StrictWeakOrder Z.gtb.
Proof. split; intros; lia. Qed.

Lemma swo_on {A} (f : A → Z) (cmp : Z → Z → bool) :
  StrictWeakOrder cmp → StrictWeakOrder (λ a b, cmp (f a) (f b)).
Proof.
  intros [Hi Ht Hc]. split; simpl; eauto.
Qed.

Lemma find_if_None {A} (p : A → bool) l :
  find_if p l = None ↔ Forall (λ x, p x = false) l.
Proof.
  induction l as [|x l IH]; simpl.
  - by split; [constructor|].
  - rewrite Forall_cons. destruct (p x) eqn:Hp.
    + split; [done|]. by intros [? _].
    + rewrite fmap_None, IH. split; [by split|by intros [_ ?]].
Qed.

Lemma sorted_by_delete {A} (cmp : A → A → bool) l i :
  sorted_by cmp l → sorted_by cmp (delete i l).
Proof.
  unfold sorted_by. revert i. induction l as [|x l IH]; intros i Hl; [done|].
  apply StronglySorted_inv in Hl as [Hl Hx].
  destruct i as [|i]; simpl; [done|].
  constructor; [by apply IH|]. by apply Forall_delete.
Qed.

End Std.

(** ** U.LAB.1: the knights' tournament *)
Module Lab1.
Import Std.

(** [sum += num] on [int], with wrap-around. *)
Definition calculateSum (array : list Z) : Z :=
  foldl (λ sum num, to_int (sum + num)) 0 array.

(** The loop of [findKnightWithMaxSum] from index [i] on, with the running
    [maxSum] and [knightIndex].  The index is not wrapped: a vector has fewer
    than 2^31 elements. *)
Fixpoint findKnightWithMaxSum_from
    (knights : list (list Z)) (i maxSum knightIndex : Z) : Z :=
  match knights with
  | [] => knightIndex
  | knight :: rest =>
      let currentSum := calculateSum knight in
      if currentSum >? maxSum
      then findKnightWithMaxSum_from rest (i + 1) currentSum i
      else findKnightWithMaxSum_from rest (i + 1) maxSum knightIndex
  end.

Definition findKnightWithMaxSum (knights : list (list Z)) : Z :=
  findKnightWithMaxSum_from knights 0 INT_MIN (-1).

(** The loop of [findKnightWithMinSum], as for the maximum. *)
Fixpoint findKnightWithMinSum_from
    (knights : list (list Z)) (i minSum knightIndex : Z) : Z :=
  match knights with
  | [] => knightIndex
  | knight :: rest =>
      let currentSum := calculateSum knight in
      if currentSum <? minSum
      then findKnightWithMinSum_from rest (i + 1) currentSum i
      else findKnightWithMinSum_from rest (i + 1) minSum knightIndex
  end.

Definition findKnightWithMinSum (knights : list (list Z)) : Z :=
  findKnightWithMinSum_from knights 0 INT_MAX (-1).

(** The sum of the strengths as a mathematical integer. *)
Definition exact_sum (array : list Z) : Z := foldr Z.add 0 array.

(** *** Properties of the tournament *)

Example calculateSum_wraps : calculateSum [INT_MAX; 1] = INT_MIN.
Proof. reflexivity. Qed.

Example findKnightWithMaxSum_first_of_equals :
  findKnightWithMaxSum [[1; 2; 3]; [4; 5; 6]; [6; 5; 4]; [0; 0; 0]] = 1.
Proof. reflexivity. Qed.

Example findKnightWithMaxSum_empty : findKnightWithMaxSum [] = -1.
Proof. reflexivity. Qed.

Lemma calculateSum_from_is_int array acc :
  is_int acc → is_int (foldl (λ sum num, to_int (sum + num)) acc array).
Proof.
  revert acc. induction array as [|num array IH]; intros acc Hacc; simpl; [done|].
  apply IH, to_int_range.
Qed.

Lemma calculateSum_is_int array : is_int (calculateSum array).
Proof. apply calculateSum_from_is_int. unfold is_int, INT_MIN, INT_MAX. lia. Qed.

(** The loop either keeps the index it was given, when no remaining sum
    exceeds [maxSum], or returns the first position whose sum is the
    greatest of the remaining ones. *)
Lemma findKnightWithMaxSum_from_spec knights i maxSum knightIndex :
  (findKnightWithMaxSum_from knights i maxSum knightIndex = knightIndex ∧
   Forall (λ knight, calculateSum knight ≤ maxSum) knights)
  ∨
  (∃ (j : nat) knight,
     findKnightWithMaxSum_from knights i maxSum knightIndex = i + Z.of_nat j ∧
     knights !! j = Some knight ∧
     maxSum < calculateSum knight ∧
     Forall (λ other, calculateSum other ≤ calculateSum knight) knights ∧
     Forall (λ other, calculateSum other < calculateSum knight) (take j knights)).
Proof.
  revert i maxSum knightIndex.
  induction knights as [|knight rest IH]; intros i maxSum knightIndex; simpl.
  - left. by split.
  - destruct (Z.gtb_spec (calculateSum knight) maxSum) as [Hgt|Hle].
    + right.
      destruct (IH (i + 1) (calculateSum knight) i) as [[-> Hall]|(j & k & -> & Hj & Hk & Hall & Hbefore)].
      * exists 0%nat, knight. split_and!; try done; [lia|by constructor].
      * exists (S j), k. split_and!; try done; try lia.
        -- constructor; [lia|done].
        -- simpl. constructor; [lia|done].
    + destruct (IH (i + 1) maxSum knightIndex) as [[-> Hall]|(j & k & -> & Hj & Hk & Hall & Hbefore)].
      * left. split; [done|]. by constructor.
      * right. exists (S j), k. split_and!; try done; try lia.
        -- constructor; [lia|done].
        -- simpl. constructor; [lia|done].
Qed.

(** When some knight has a strength sum above [INT_MIN], the result is the
    smallest index of a knight whose sum is the greatest. *)
Lemma findKnightWithMaxSum_first_maximum knights :
  Exists (λ knight, calculateSum knight ≠ INT_MIN) knights →
  ∃ (j : nat) knight,
    findKnightWithMaxSum knights = Z.of_nat j ∧
    knights !! j = Some knight ∧
    Forall (λ other, calculateSum other ≤ calculateSum knight) knights ∧
    Forall (λ other, calculateSum other < calculateSum knight) (take j knights).
Proof.
  intros Hex. unfold findKnightWithMaxSum.
  destruct (findKnightWithMaxSum_from_spec knights 0 INT_MIN (-1))
    as [[_ Hall]|(j & k & -> & Hj & _ & Hall & Hbefore)].
  - exfalso. apply Exists_exists in Hex as (knight & Hin & Hne).
    apply (proj1 (Forall_forall _ _) Hall) in Hin.
    pose proof (calculateSum_is_int knight) as [Hlo _]. lia.
  - exists j, k. by split_and!.
Qed.

(** When every knight's sum is [INT_MIN], no sum exceeds the initial
    [maxSum] and the initial index [-1] comes back. *)
Lemma findKnightWithMaxSum_all_minimal knights :
  Forall (λ knight, calculateSum knight = INT_MIN) knights →
  findKnightWithMaxSum knights = -1.
Proof.
  intros Hall. unfold findKnightWithMaxSum.
  destruct (findKnightWithMaxSum_from_spec knights 0 INT_MIN (-1))
    as [[-> _]|(j & k & _ & Hj & Hk & _ & _)]; [done|].
  apply (proj1 (Forall_lookup _ _) Hall) in Hj. lia.
Qed.

(** C4, at the input of one knight whose only strength is [INT_MIN]: the
    vector is not empty and index 0 holds the greatest sum, yet the function
    returns -1. *)
Theorem findKnightWithMaxSum_returns_minus_one :
  calculateSum [INT_MIN] = INT_MIN ∧
  findKnightWithMaxSum [[INT_MIN]] = -1.
Proof. split; reflexivity. Qed.

Lemma to_int_add_l a b : to_int (to_int a + b) = to_int (a + b).
Proof.
  unfold to_int. f_equal.
  replace ((a + 2 ^ 31) mod 2 ^ 32 - 2 ^ 31 + b + 2 ^ 31)
    with ((a + 2 ^ 31) mod 2 ^ 32 + b) by lia.
  rewrite Zplus_mod_idemp_l. f_equal. lia.
Qed.

Lemma calculateSum_from_exact array acc :
  to_int (foldl (λ sum num, to_int (sum + num)) acc array)
    = to_int (acc + exact_sum array).
Proof.
  revert acc. induction array as [|num array IH]; intros acc; simpl.
  - f_equal. lia.
  - rewrite IH, to_int_add_l. f_equal. lia.
Qed.

(** X1: [calculateSum] returns the exact sum of the strengths reduced to
    the [int] range; whenever the exact sum is an [int], it is returned as
    it is, whatever the partial sums did on the way. *)
Theorem calculateSum_exact (array : list Z) :
  calculateSum array = to_int (exact_sum array) ∧
  (is_int (exact_sum array) → calculateSum array = exact_sum array).
Proof.
  assert (calculateSum array = to_int (exact_sum array)) as Heq.
  { rewrite <- (Z.add_0_l (exact_sum array)), <- calculateSum_from_exact.
    pose proof (calculateSum_is_int array) as Hint.
    unfold is_int, INT_MIN, INT_MAX in Hint. fold (calculateSum array).
    unfold to_int. rewrite Z.mod_small; lia. }
  split; [done|]. intros Hint. rewrite Heq.
  unfold is_int, INT_MIN, INT_MAX in Hint. unfold to_int.
  rewrite Z.mod_small; lia.
Qed.

(** X2: [findKnightWithMaxSum] returns -1 exactly when every knight's sum
    is [INT_MIN] (the empty vector included); otherwise it returns the
    smallest index of a knight whose sum is the greatest. *)
Theorem findKnightWithMaxSum_characterised (knights : list (list Z)) :
  (Forall (λ knight, calculateSum knight = INT_MIN) knights ∧
   findKnightWithMaxSum knights = -1)
  ∨
  (∃ (j : nat) knight,
     findKnightWithMaxSum knights = Z.of_nat j ∧
     knights !! j = Some knight ∧
     INT_MIN < calculateSum knight ∧
     Forall (λ other, calculateSum other ≤ calculateSum knight) knights ∧
     Forall (λ other, calculateSum other < calculateSum knight) (take j knights)).
Proof.
  unfold findKnightWithMaxSum.
  destruct (findKnightWithMaxSum_from_spec knights 0 INT_MIN (-1))
    as [[-> Hall]|(j & k & -> & Hj & Hk & Hall & Hbefore)].
  - left. split; [|done]. eapply Forall_impl; [exact Hall|].
    intros knight Hle. simpl in Hle.
    pose proof (calculateSum_is_int knight) as [Hlo _]. lia.
  - right. exists j, k. by split_and!.
Qed.

Lemma findKnightWithMinSum_from_spec knights i minSum knightIndex :
  (findKnightWithMinSum_from knights i minSum knightIndex = knightIndex ∧
   Forall (λ knight, minSum ≤ calculateSum knight) knights)
  ∨
  (∃ (j : nat) knight,
     findKnightWithMinSum_from knights i minSum knightIndex = i + Z.of_nat j ∧
     knights !! j = Some knight ∧
     calculateSum knight < minSum ∧
     Forall (λ other, calculateSum knight ≤ calculateSum other) knights ∧
     Forall (λ other, calculateSum knight < calculateSum other) (take j knights)).
Proof.
  revert i minSum knightIndex.
  induction knights as [|knight rest IH]; intros i minSum knightIndex; simpl.
  - left. by split.
  - destruct (Z.ltb_spec (calculateSum knight) minSum) as [Hlt|Hge].
    + right.
      destruct (IH (i + 1) (calculateSum knight) i)
        as [[-> Hall]|(j & k & -> & Hj & Hk & Hall & Hbefore)].
      * exists 0%nat, knight. split_and!; try done; [lia|by constructor].
      * exists (S j), k. split_and!; try done; try lia.
        -- constructor; [lia|done].
        -- simpl. constructor; [lia|done].
    + destruct (IH (i + 1) minSum knightIndex)
        as [[-> Hall]|(j & k & -> & Hj & Hk & Hall & Hbefore)].
      * left. split; [done|]. by constructor.
      * right. exists (S j), k. split_and!; try done; try lia.
        -- constructor; [lia|done].
        -- simpl. constructor; [lia|done].
Qed.

(** X3: [findKnightWithMinSum] returns -1 exactly when every knight's sum
    is [INT_MAX] (the empty vector included); otherwise it returns the
    smallest index of a knight whose sum is the least. *)
Theorem findKnightWithMinSum_characterised (knights : list (list Z)) :
  (Forall (λ knight, calculateSum knight = INT_MAX) knights ∧
   findKnightWithMinSum knights = -1)
  ∨
  (∃ (j : nat) knight,
     findKnightWithMinSum knights = Z.of_nat j ∧
     knights !! j = Some knight ∧
     calculateSum knight < INT_MAX ∧
     Forall (λ other, calculateSum knight ≤ calculateSum other) knights ∧
     Forall (λ other, calculateSum knight < calculateSum other) (take j knights)).
Proof.
  unfold findKnightWithMinSum.
  destruct (findKnightWithMinSum_from_spec knights 0 INT_MAX (-1))
    as [[-> Hall]|(j & k & -> & Hj & Hk & Hall & Hbefore)].
  - left. split; [|done]. eapply Forall_impl; [exact Hall|].
    intros knight Hge. simpl in Hge.
    pose proof (calculateSum_is_int knight) as [_ Hhi]. lia.
  - right. exists j, k. by split_and!.
Qed.

End Lab1.

(** ** U.LAB.3: the library catalog *)
Module Lab3.

Record Book : Type := mkBook {
  isbn : string;
  title : string;
  author : string;
  year : Z;
  is_available : bool;
  pages : Z
}.

(** [book.is_available = b] on the element the loop refers to. *)
Definition set_is_available (b : bool) (book : Book) : Book :=
  mkBook (isbn book) (title book) (author book) (year book) b (pages book).

(** [borrow_book]: the returned flag and the vector as the call leaves it
    (the vector is passed by reference).  The messages written to the
    console are not part of the model. *)
Fixpoint borrow_book (books : list Book) (isbn_ : string) : bool * list Book :=
  match books with
  | [] => (false, [])
  | book :: rest =>
      if String.eqb (isbn book) isbn_ then
        if is_available book
        then (true, set_is_available false book :: rest)
        else (false, book :: rest)
      else
        let '(found, rest') := borrow_book rest isbn_ in (found, book :: rest')
  end.

Fixpoint return_book (books : list Book) (isbn_ : string) : bool * list Book :=
  match books with
  | [] => (false, [])
  | book :: rest =>
      if String.eqb (isbn book) isbn_ then
        if negb (is_available book)
        then (true, set_is_available true book :: rest)
        else (false, book :: rest)
      else
        let '(found, rest') := return_book rest isbn_ in (found, book :: rest')
  end.


(** [a.author < b.author] on [std::string]: lexicographic on the
    characters as unsigned values, a proper prefix first. *)
Definition compare_books (a b : Book) : bool :=
  if negb (year a =? year b) then year a >? year b
  else String.ltb (author a) (author b).

Definition sort_books `{Std.Sort} (books : list Book) : list Book :=
  Std.sort compare_books books.

(** A catalog in which two books share an ISBN. *)
Definition catalog : list Book :=
  [ mkBook "978-0-306-40615-7" "The Great Journey" "John Smith" 1999 false 320;
    mkBook "123-4-567-89012-3" "A Secret Garden" "Mary Brown" 2005 true 210;
    mkBook "123-4-567-89012-3" "My Lost Dream" "Mary Brown" 2010 true 150 ].

(** *** Properties of the catalog *)

Lemma set_is_available_twice b book :
  is_available book = b → set_is_available b (set_is_available (negb b) book) = book.
Proof. destruct book; simpl. by intros ->. Qed.

(** A successful [borrow_book] changes one book only: the first one with the
    ISBN, which was available, and only its flag. *)
Lemma borrow_book_true books isbn_ :
  (borrow_book books isbn_).1 = true →
  ∃ (i : nat) book,
    books !! i = Some book ∧ isbn book = isbn_ ∧ is_available book = true ∧
    (borrow_book books isbn_).2 = <[i := set_is_available false book]> books.
Proof.
  induction books as [|book rest IH]; simpl; [done|].
  destruct (String.eqb_spec (isbn book) isbn_) as [Heq|Hne].
  - destruct (is_available book) eqn:Hav; simpl; [|done].
    intros _. by exists 0%nat, book.
  - destruct (borrow_book rest isbn_) as [found rest'] eqn:Hrest; simpl in *.
    intros Hfound. destruct (IH Hfound) as (i & b & Hi & Hisbn & Hav & ->).
    by exists (S i), b.
Qed.

(** C3: after a successful [borrow_book], [return_book] with the same ISBN
    succeeds and gives back the vector as it was before the borrow; the
    borrow changed the availability flag of one book and nothing else. *)
Theorem borrow_then_return (books : list Book) (isbn_ : string) :
  (borrow_book books isbn_).1 = true →
  return_book (borrow_book books isbn_).2 isbn_ = (true, books) ∧
  ∃ (i : nat) book,
    books !! i = Some book ∧ isbn book = isbn_ ∧ is_available book = true ∧
    (borrow_book books isbn_).2 = <[i := set_is_available false book]> books.
Proof.
  intros Hborrow. split; [|by apply borrow_book_true].
  induction books as [|book rest IH]; simpl in *; [done|].
  destruct (String.eqb_spec (isbn book) isbn_) as [Heq|Hne].
  - destruct (is_available book) eqn:Hav; simpl in *; [|done].
    destruct (String.eqb_spec (isbn book) isbn_); [|done].
    f_equal. f_equal. exact (set_is_available_twice true book Hav).
  - destruct (borrow_book rest isbn_) as [found rest'] eqn:Hrest; simpl in *.
    destruct (String.eqb_spec (isbn book) isbn_); [done|].
    by rewrite (IH Hborrow).
Qed.

(** The round trip on [catalog]: the first of the two books with the ISBN is
    the one borrowed and returned. *)
Lemma borrow_then_return_witness :
  return_book (borrow_book catalog "123-4-567-89012-3").2 "123-4-567-89012-3"
    = (true, catalog) ∧
  ∃ (i : nat) book,
    catalog !! i = Some book ∧ isbn book = "123-4-567-89012-3" ∧
    is_available book = true ∧
    (borrow_book catalog "123-4-567-89012-3").2
      = <[i := set_is_available false book]> catalog.
Proof. apply (borrow_then_return catalog "123-4-567-89012-3"). reflexivity. Defined.

(** X4: the round trip the other way: after a successful [return_book],
    [borrow_book] with the same ISBN succeeds and gives back the vector as
    it was before the return. *)
Theorem return_then_borrow (books : list Book) (isbn_ : string) :
  (return_book books isbn_).1 = true →
  borrow_book (return_book books isbn_).2 isbn_ = (true, books).
Proof.
  induction books as [|book rest IH]; simpl; [done|].
  destruct (String.eqb_spec (isbn book) isbn_) as [Heq|Hne].
  - destruct (is_available book) eqn:Hav; simpl; [done|]. intros _.
    destruct (String.eqb_spec (isbn book) isbn_); [|done].
    f_equal. f_equal. exact (set_is_available_twice false book Hav).
  - destruct (return_book rest isbn_) as [found rest'] eqn:Hrest; simpl in *.
    intros Hfound.
    destruct (String.eqb_spec (isbn book) isbn_); [done|].
    by rewrite (IH Hfound).
Qed.

(** The second book of [catalog] is borrowed first, then returned and
    borrowed again. *)
Lemma return_then_borrow_witness :
  borrow_book
    (return_book (borrow_book catalog "123-4-567-89012-3").2 "123-4-567-89012-3").2
    "123-4-567-89012-3"
  = (true, (borrow_book catalog "123-4-567-89012-3").2).
Proof.
  apply (return_then_borrow (borrow_book catalog "123-4-567-89012-3").2
           "123-4-567-89012-3").
  reflexivity.
Defined.

(** X5: [borrow_book] and [return_book] look at the first book with the
    ISBN only.  Without such a book they return false and change nothing;
    otherwise [borrow_book] succeeds exactly when that book is available
    and [return_book] exactly when it is not, they flip the flag of that
    book alone, and on failure they change nothing. *)
Theorem borrow_return_first_match (books : list Book) (isbn_ : string) :
  match Std.find_if (λ book, String.eqb (isbn book) isbn_) books with
  | None =>
      borrow_book books isbn_ = (false, books) ∧
      return_book books isbn_ = (false, books)
  | Some i =>
      ∃ book,
        books !! i = Some book ∧ isbn book = isbn_ ∧
        borrow_book books isbn_ =
          (if is_available book
           then (true, <[i := set_is_available false book]> books)
           else (false, books)) ∧
        return_book books isbn_ =
          (if is_available book
           then (false, books)
           else (true, <[i := set_is_available true book]> books))
  end.
Proof.
  induction books as [|book rest IH]; simpl; [done|].
  destruct (String.eqb_spec (isbn book) isbn_) as [Heq|Hne].
  - exists book. split_and!; [done|done| |]; by destruct (is_available book).
  - destruct (Std.find_if _ rest) as [i|]; simpl.
    + destruct IH as (b & Hi & Hisbn & -> & ->).
      exists b. split_and!; [done|done| |]; by destruct (is_available b).
    + by destruct IH as [-> ->].
Qed.

(** X6: a book that has just been borrowed cannot be borrowed again: the
    second [borrow_book] returns false and changes nothing. *)
Theorem borrow_twice_fails (books : list Book) (isbn_ : string) :
  (borrow_book books isbn_).1 = true →
  borrow_book (borrow_book books isbn_).2 isbn_ = (false, (borrow_book books isbn_).2).
Proof.
  induction books as [|book rest IH]; simpl; [done|].
  destruct (String.eqb_spec (isbn book) isbn_) as [Heq|Hne].
  - destruct (is_available book) eqn:Hav; simpl; [|done]. intros _.
    by destruct (String.eqb_spec (isbn book) isbn_).
  - destruct (borrow_book rest isbn_) as [found rest'] eqn:Hrest; simpl in *.
    intros Hfound.
    destruct (String.eqb_spec (isbn book) isbn_); [done|].
    by rewrite (IH Hfound).
Qed.

Lemma borrow_twice_fails_witness :
  borrow_book (borrow_book catalog "123-4-567-89012-3").2 "123-4-567-89012-3"
  = (false, (borrow_book catalog "123-4-567-89012-3").2).
Proof. apply (borrow_twice_fails catalog "123-4-567-89012-3"). reflexivity. Defined.




Lemma string_compare_refl s : String.compare s s = Eq.
Proof.
  induction s as [|a s IH]; simpl; [done|].
  unfold Ascii.compare. by rewrite N.compare_refl.
Qed.

Lemma string_compare_lt_trans s1 s2 s3 :
  String.compare s1 s2 = Lt → String.compare s2 s3 = Lt → String.compare s1 s3 = Lt.
Proof.
  revert s2 s3. induction s1 as [|a1 s1 IH]; intros [|a2 s2] [|a3 s3]; simpl; try done.
  unfold Ascii.compare.
  destruct (N.compare_spec (Ascii.N_of_ascii a1) (Ascii.N_of_ascii a2)) as [E12|L12|G12],
           (N.compare_spec (Ascii.N_of_ascii a2) (Ascii.N_of_ascii a3)) as [E23|L23|G23];
    try done; intros H12 H23.
  - rewrite E12, E23, N.compare_refl. by eapply IH.
  - rewrite E12. by apply N.compare_lt_iff in L23 as ->.
  - rewrite <- E23. by apply N.compare_lt_iff in L12 as ->.
  - assert (Ascii.N_of_ascii a1 < Ascii.N_of_ascii a3)%N as L13 by lia.
    by apply N.compare_lt_iff in L13 as ->.
Qed.

Lemma string_ltb_false_sym s1 s2 :
  String.ltb s1 s2 = false → String.ltb s2 s1 = false → s1 = s2.
Proof.
  unfold String.ltb. rewrite (String.compare_antisym s2 s1).
  destruct (String.compare s1 s2) eqn:Hcmp; simpl; try done.
  intros _ _. by apply String.compare_eq_iff.
Qed.

Lemma swo_compare_books : Std.StrictWeakOrder compare_books.
Proof.
  assert (∀ x y, compare_books x y = true ↔
            year y < year x ∨ (year x = year y ∧ String.compare (author x) (author y) = Lt))
    as Htrue.
  { intros x y. unfold compare_books, String.ltb.
    destruct (Z.eqb_spec (year x) (year y)); simpl.
    - destruct (String.compare _ _) eqn:Hcmp.
      + split; [done|]. intros [?|[_ ?]]; [lia|done].
      + split; [by right|done].
      + split; [done|]. intros [?|[_ ?]]; [lia|done].
    - rewrite Z.gtb_ltb, Z.ltb_lt. split; [by left|]. intros [?|[? _]]; done. }
  assert (∀ x y, compare_books x y = false → compare_books y x = false →
            year x = year y ∧ author x = author y) as Hincomp.
  { intros x y Hxy Hyx. unfold compare_books in *.
    rewrite (Z.eqb_sym (year y) (year x)) in Hyx.
    destruct (Z.eqb_spec (year x) (year y)); simpl in *.
    - split; [done|]. by apply string_ltb_false_sym.
    - rewrite Z.gtb_ltb, Z.ltb_ge in Hxy, Hyx. lia. }
  split.
  - intros x. apply not_true_iff_false. rewrite Htrue, string_compare_refl.
    intros [?|[_ ?]]; done || lia.
  - intros x y z. rewrite !Htrue.
    intros [?|[Exy Lxy]] [?|[Eyz Lyz]]; try (left; lia).
    right. split; [lia|]. by eapply string_compare_lt_trans.
  - intros x y z Hxy Hyx Hyz Hzy.
    destruct (Hincomp _ _ Hxy Hyx) as [Y1 A1], (Hincomp _ _ Hyz Hzy) as [Y2 A2].
    unfold compare_books in *. rewrite <- A2, <- Y2. rewrite <- A1, <- Y1 in Hzy. 
    rewrite <- A1 in Hyx. rewrite Y1 in Hxy |- *. rewrite Z.eqb_refl in *. simpl in *.
    rewrite A1 in *. done.
Qed.

(** X8: [sort_books] rearranges the books so that no book is followed by
    a newer one and, among books of one year, by one whose author comes
    earlier. *)
Theorem sort_books_sorted `{Std.Sort} (books : list Book) :
  sort_books books ≡ₚ books ∧
  StronglySorted
    (λ a b, year b ≤ year a ∧
            (year a = year b → String.ltb (author b) (author a) = false))
    (sort_books books).
Proof.
  unfold sort_books. split; [apply Std.sort_perm, swo_compare_books|].
  pose proof (Std.sort_sorted _ compare_books books swo_compare_books) as Hs.
  unfold Std.sorted_by in Hs.
  induction Hs as [|a l Hl IH Ha]; constructor; [done|].
  eapply Forall_impl; [exact Ha|]. intros b Hba; simpl in Hba.
  unfold compare_books in Hba.
  destruct (Z.eqb_spec (year b) (year a)); simpl in Hba.
  - split; [lia|done].
  - rewrite Z.gtb_ltb, Z.ltb_ge in Hba. split; [lia|]. intros ?; congruence.
Qed.

End Lab3.

(** ** U.LAB.5: the geometric shapes *)
Module Lab5.
Import Std.

(** [double] and the operations the program applies to it. *)
Definition double : Type := spec_float.

Definition dadd : double → double → double := SFadd 53 1024.
Definition dsub : double → double → double := SFsub 53 1024.

(** The comparisons [x >= y], [x <= y] and [x < y]; each is false when an
    operand is NaN. *)
Definition dge (x y : double) : bool :=
  match SFcompare x y with
  | Some Gt | Some Eq => true
  | _ => false
  end.
Definition dle : double → double → bool := SFleb.
Definition dlt : double → double → bool := SFltb.

(** The literals [0] (converted from [int]) and [0.1] (the nearest
    binary64 number). *)
Definition zero : double := S754_zero false.
Definition one_tenth : double := S754_finite false 7205759403792794 (-56).

Inductive exn : Type :=
| invalid_argument (what : string).

(** The data members of the base class [Figure]. *)
Record Figure : Type := mkFigure {
  size1 : double;
  size2 : double;
  size3 : double
}.

(** [Figure()]. *)
Definition Figure_new : Figure := mkFigure zero zero zero.

Definition setSize1 (p1 : double) : M Figure exn () :=
  fig ← get;
  if dge p1 zero then put (mkFigure p1 (size2 fig) (size3 fig))
  else throw (invalid_argument "Size must be greater than zero").

Definition setSize2 (p2 : double) : M Figure exn () :=
  fig ← get;
  if dge p2 zero then put (mkFigure (size1 fig) p2 (size3 fig))
  else throw (invalid_argument "Size must be greater than zero").

Definition setSize3 (p3 : double) : M Figure exn () :=
  fig ← get;
  if dge p3 zero then put (mkFigure (size1 fig) (size2 fig) p3)
  else throw (invalid_argument "Size must be greater than zero").

(** An object of one of the three derived classes: its dynamic type and
    its [Figure] members. *)
Inductive Shape : Type :=
| Square (base : Figure)
| Rectangle (base : Figure)
| Triangle (base : Figure).

(** A constructor body runs on the default-constructed base; the object
    exists only if the body does not throw. *)
Definition construct (derived : Figure → Shape) (body : M Figure exn ()) :
    result exn Shape :=
  match body Figure_new with
  | (Ok _, fig) => Ok (derived fig)
  | (Throw e, _) => Throw e
  end.

Definition Square_new (side : double) : result exn Shape :=
  construct Square (setSize1 side;; setSize2 zero;; setSize3 zero).

Definition Rectangle_new (width height : double) : result exn Shape :=
  construct Rectangle (setSize1 width;; setSize2 height;; setSize3 zero).

Definition Triangle_new (a b c : double) : result exn Shape :=
  construct Triangle
    (if dle (dadd a b) c || dle (dadd a c) b || dle (dadd b c) a
     then throw (invalid_argument "Triangle inequality violated")
     else setSize1 a;; setSize2 b;; setSize3 c).

(** The collection.  A [Figure*] is the object it points to, or [None] for
    a null pointer; no property below depends on the identity of the
    objects. *)
Record Geometry_Dash : Type := mkGeometry_Dash {
  figures : list (option Shape);
  maxSize : nat
}.

Definition Geometry_Dash_new (max : nat) : Geometry_Dash :=
  mkGeometry_Dash [] max.

(** The default argument of the constructor. *)
Definition Geometry_Dash_default : Geometry_Dash := Geometry_Dash_new 15.

Definition size (gd : Geometry_Dash) : nat := length (figures gd).

Definition addFigure (figure : option Shape) (gd : Geometry_Dash) :
    bool * Geometry_Dash :=
  if (size gd <? maxSize gd)%nat
  then (true, mkGeometry_Dash (figures gd ++ [figure]) (maxSize gd))
  else (false, gd).

Definition removeFigure (index : nat) (gd : Geometry_Dash) :
    bool * Geometry_Dash :=
  if (index <? size gd)%nat
  then (true, mkGeometry_Dash (delete index (figures gd)) (maxSize gd))
  else (false, gd).

Definition clear (gd : Geometry_Dash) : Geometry_Dash :=
  mkGeometry_Dash [] (maxSize gd).

(** The values one iteration of [generateRandomFigures] may draw from the
    generator: the figure type, and one value for each distribution the
    iteration can consult ([fallbackSide] is the draw of the [catch]
    block).  The ranges of the distributions are not assumed. *)
Record Draw : Type := mkDraw {
  type : Z;
  squareSide : double;
  rectWidth : double;
  rectHeight : double;
  triangleA : double;
  triangleB : double;
  triangleC : double;
  fallbackSide : double
}.

(** The [switch] inside the [try]: the object a case constructs, the
    exception its constructor throws, or [None] when no case matches. *)
Definition new_figure (d : Draw) : option (result exn Shape) :=
  if type d =? 0 then Some (Square_new (squareSide d))
  else if type d =? 1 then Some (Rectangle_new (rectWidth d) (rectHeight d))
  else if type d =? 2 then
    let a := triangleA d in
    let b := triangleB d in
    let min_c := dadd (SFabs (dsub a b)) one_tenth in
    let max_c := dsub (dadd a b) one_tenth in
    if dlt min_c max_c then Some (Triangle_new a b (triangleC d))
    else Some (Square_new (squareSide d))
  else None.

Definition push_back (figure : option Shape) : M Geometry_Dash exn () :=
  gd ← get; put (mkGeometry_Dash (figures gd ++ [figure]) (maxSize gd)).

(** One iteration of the loop body: [try { switch ... } catch ...]. *)
Definition generate_one (d : Draw) : M Geometry_Dash exn () :=
  match new_figure d with
  | None => mret ()
  | Some (Ok shape) => push_back (Some shape)
  | Some (Throw _) =>
      match Square_new (fallbackSide d) with
      | Ok shape => push_back (Some shape)
      | Throw e => throw e
      end
  end.

(** The loop [for (i = 0; i < count && figures.size() < maxSize; ++i)],
    with [remaining = count - i]. *)
Fixpoint generate_from (remaining i : nat) (draws : nat → Draw) :
    M Geometry_Dash exn () :=
  match remaining with
  | O => mret ()
  | S remaining' =>
      gd ← get;
      if (size gd <? maxSize gd)%nat
      then generate_one (draws i);; generate_from remaining' (S i) draws
      else mret ()
  end.

(** [count] is the drawn number of figures, [draws i] the values drawn in
    iteration [i]. *)
Definition generateRandomFigures (count : nat) (draws : nat → Draw) :
    M Geometry_Dash exn () :=
  generate_from count 0 draws.

(** The collections a program can build.  [sortBySquare] hands the vector
    to [std::sort], which rearranges it; the order it chooses depends on
    the areas, which the properties below do not involve. *)
Inductive reachable : Geometry_Dash → Prop :=
| reach_new max :
    reachable (Geometry_Dash_new max)
| reach_addFigure gd figure :
    reachable gd → reachable (addFigure figure gd).2
| reach_removeFigure gd index :
    reachable gd → reachable (removeFigure index gd).2
| reach_clear gd :
    reachable gd → reachable (clear gd)
| reach_sortBySquare gd figures' :
    reachable gd → figures' ≡ₚ figures gd →
    reachable (mkGeometry_Dash figures' (maxSize gd))
| reach_generateRandomFigures gd count draws :
    reachable gd → reachable (exec (generateRandomFigures count draws) gd).

Definition getFigure (index : nat) (gd : Geometry_Dash) : option Shape :=
  if (index <? size gd)%nat then mjoin (figures gd !! index) else None.

Definition dmul : double → double → double := SFmul 53 1024.

(** The comparison [x > y], false when an operand is NaN. *)
Definition dgt (x y : double) : bool :=
  match SFcompare x y with
  | Some Gt => true
  | _ => false
  end.

(** The literals [2] and [4], converted from [int]. *)
Definition two : double := S754_finite false 4503599627370496 (-51).
Definition four : double := S754_finite false 4503599627370496 (-50).

(** The [Figure] members of an object, and the object with other members. *)
Definition base (shape : Shape) : Figure :=
  match shape with
  | Square fig | Rectangle fig | Triangle fig => fig
  end.

Definition with_base (shape : Shape) (fig : Figure) : Shape :=
  match shape with
  | Square _ => Square fig
  | Rectangle _ => Rectangle fig
  | Triangle _ => Triangle fig
  end.

(** The three overrides of [perimeter]. *)
Definition perimeter (shape : Shape) : double :=
  match shape with
  | Square fig => dmul (size1 fig) four
  | Rectangle fig => dmul two (dadd (size1 fig) (size2 fig))
  | Triangle fig => dadd (dadd (size1 fig) (size2 fig)) (size3 fig)
  end.

(** The loop of [findMaxPerimeter] with the current [maxFigure]; [None]
    when it calls [perimeter] through a null pointer, which is undefined. *)
Fixpoint findMaxPerimeter_from (maxFigure : Shape) (rest : list (option Shape)) :
    option Shape :=
  match rest with
  | [] => Some maxFigure
  | None :: _ => None
  | Some figure :: rest' =>
      findMaxPerimeter_from
        (if dgt (perimeter figure) (perimeter maxFigure) then figure else maxFigure)
        rest'
  end.

(** [findMaxPerimeter]: the returned pointer, under [Some]; [None] when
    the behaviour is undefined. *)
Definition findMaxPerimeter (gd : Geometry_Dash) : option (option Shape) :=
  match figures gd with
  | [] => Some None
  | [first] => Some first
  | None :: _ => None
  | Some first :: rest => Some <$> findMaxPerimeter_from first rest
  end.

(** The objects a program can have: made by a constructor of a derived
    class, then changed through the setters (a setter that throws leaves
    the object as it was). *)
Inductive built : Shape → Prop :=
| built_Square side shape :
    Square_new side = Ok shape → built shape
| built_Rectangle width height shape :
    Rectangle_new width height = Ok shape → built shape
| built_Triangle a b c shape :
    Triangle_new a b c = Ok shape → built shape
| built_setSize1 shape p :
    built shape → built (with_base shape (exec (setSize1 p) (base shape)))
| built_setSize2 shape p :
    built shape → built (with_base shape (exec (setSize2 p) (base shape)))
| built_setSize3 shape p :
    built shape → built (with_base shape (exec (setSize3 p) (base shape))).

(** No size is negative or NaN. *)
Definition sizes_valid (fig : Figure) : Prop :=
  dge (size1 fig) zero = true ∧ dge (size2 fig) zero = true ∧
  dge (size3 fig) zero = true.

(** A draw that selects a square of side 2.5. *)
Definition square_draw : Draw :=
  mkDraw 0 (S754_finite false 5629499534213120 (-51)) zero zero zero zero zero zero.

(** A full collection of capacity one, reached by two [addFigure] calls. *)
Definition full_collection : Geometry_Dash :=
  (addFigure None (addFigure None (Geometry_Dash_new 1)).2).2.

(** *** Properties of the shapes *)

(** 2.5, and the two zeros. *)
Example Square_new_positive :
  Square_new (S754_finite false 5629499534213120 (-51)) =
    Ok (Square (mkFigure (S754_finite false 5629499534213120 (-51)) zero zero)).
Proof. reflexivity. Qed.

Example Square_new_negative :
  Square_new (S754_finite true 5629499534213120 (-51)) =
    Throw (invalid_argument "Size must be greater than zero").
Proof. reflexivity. Qed.

Example Square_new_negative_zero :
  Square_new (S754_zero true) = Ok (Square (mkFigure (S754_zero true) zero zero)).
Proof. reflexivity. Qed.

(** Five iterations requested, room for three. *)
Example generateRandomFigures_stops :
  size (exec (generateRandomFigures 5 (λ _, square_draw)) (Geometry_Dash_new 3)) = 3%nat.
Proof. reflexivity. Qed.

(** [p >= 0] fails for the negative numbers, for minus infinity and for
    NaN, and for nothing else. *)
Lemma dge_zero_false p :
  dge p zero = false ↔ dlt p zero = true ∨ p = S754_nan.
Proof.
  destruct p as [s|s| |s m e]; try destruct s; cbv; split; auto;
    intros [?|?]; done.
Qed.

(** C5 as stated fails at NaN: [setSize1] throws although NaN is not less
    than zero. *)
Lemma setSize1_throws_on_nan :
  ¬ ((setSize1 S754_nan Figure_new).1
       = Throw (invalid_argument "Size must be greater than zero")
     ↔ dlt S754_nan zero = true).
Proof. intros [Hthrows _]. by specialize (Hthrows eq_refl). Qed.

(** C5, amended: each setter throws [std::invalid_argument] exactly when its
    argument is not greater than or equal to zero, that is, when it is
    negative or NaN, and then leaves the three sizes as they were;
    otherwise (zero included) it stores the argument in its own field and
    leaves the other two as they were. *)
Theorem setSize_validates (p : double) (fig : Figure) :
  ((dlt p zero = true ∨ p = S754_nan) ∧
   setSize1 p fig = (Throw (invalid_argument "Size must be greater than zero"), fig) ∧
   setSize2 p fig = (Throw (invalid_argument "Size must be greater than zero"), fig) ∧
   setSize3 p fig = (Throw (invalid_argument "Size must be greater than zero"), fig))
  ∨
  (¬ (dlt p zero = true ∨ p = S754_nan) ∧
   setSize1 p fig = (Ok (), mkFigure p (size2 fig) (size3 fig)) ∧
   setSize2 p fig = (Ok (), mkFigure (size1 fig) p (size3 fig)) ∧
   setSize3 p fig = (Ok (), mkFigure (size1 fig) (size2 fig) p)).
Proof.
  unfold setSize1, setSize2, setSize3, mbind, M_bind, bind; simpl.
  rewrite <- dge_zero_false.
  destruct (dge p zero); [right|left]; by split_and!.
Qed.

(** One iteration appends at most one figure and keeps the capacity. *)
Lemma generate_one_appends d gd :
  ∃ added,
    exec (generate_one d) gd = mkGeometry_Dash (figures gd ++ added) (maxSize gd) ∧
    (length added ≤ 1)%nat.
Proof.
  unfold exec, generate_one.
  assert (∀ figure, ∃ added,
    (push_back figure gd).2 = mkGeometry_Dash (figures gd ++ added) (maxSize gd) ∧
    (length added ≤ 1)%nat) as Hpush.
  { intros figure. by exists [figure]. }
  assert (∃ added,
    gd = mkGeometry_Dash (figures gd ++ added) (maxSize gd) ∧
    (length added ≤ 1)%nat) as Hsame.
  { exists []. rewrite app_nil_r. destruct gd; simpl. split; [done|lia]. }
  destruct (new_figure d) as [[shape|e]|]; [apply Hpush| |exact Hsame].
  destruct (Square_new (fallbackSide d)); [apply Hpush|exact Hsame].
Qed.

(** The loop appends figures while there is room and never beyond. *)
Lemma generate_from_appends remaining i draws gd :
  ∃ added,
    exec (generate_from remaining i draws) gd
      = mkGeometry_Dash (figures gd ++ added) (maxSize gd) ∧
    (size gd + length added ≤ Nat.max (size gd) (maxSize gd))%nat.
Proof.
  revert i gd. induction remaining as [|remaining IH]; intros i gd.
  - exists []. unfold exec; simpl. rewrite app_nil_r. destruct gd; simpl.
    split; [done|lia].
  - unfold exec in *. simpl. unfold mbind, M_bind, bind; simpl.
    destruct (Nat.ltb_spec (size gd) (maxSize gd)) as [Hroom|Hfull].
    + destruct (generate_one_appends (draws i) gd) as (added1 & Hone & Hlen1).
      unfold exec in Hone.
      destruct (generate_one (draws i) gd) as [[[]|e] gd1]; simpl in Hone; subst gd1.
      * destruct (IH (S i) (mkGeometry_Dash (figures gd ++ added1) (maxSize gd)))
          as (added2 & -> & Hlen2).
        exists (added1 ++ added2). unfold size in *; simpl in *.
        rewrite app_assoc. split; [done|].
        rewrite length_app in *. lia.
      * exists added1. simpl. split; [done|]. lia.
    + exists []. simpl. rewrite app_nil_r. destruct gd; simpl.
      split; [done|lia].
Qed.

Lemma reachable_within_capacity gd : reachable gd → (size gd ≤ maxSize gd)%nat.
Proof.
  unfold size. induction 1 as [max|gd figure _ IH|gd index _ IH|gd _ IH
                              |gd figures' _ IH Hperm|gd count draws _ IH]; simpl.
  - lia.
  - unfold addFigure, size.
    destruct (Nat.ltb_spec (length (figures gd)) (maxSize gd)); simpl; [|done].
    rewrite length_app. simpl. lia.
  - unfold removeFigure, size.
    destruct (Nat.ltb_spec index (length (figures gd))); simpl; [|done].
    rewrite length_delete; [lia|]. by apply lookup_lt_is_Some_2.
  - lia.
  - by rewrite Hperm.
  - destruct (generate_from_appends count 0 draws gd) as (added & Hgen & Hlen).
    unfold generateRandomFigures. rewrite Hgen. unfold size in *; simpl.
    rewrite length_app. lia.
Qed.

(** C9: the number of figures of a collection never exceeds [maxSize]
    (15 by default); [addFigure] appends and returns true exactly when the
    count is below [maxSize] and otherwise returns false and changes
    nothing; [generateRandomFigures] only appends, never beyond [maxSize],
    and keeps [maxSize]. *)
Theorem figure_count_capped (gd : Geometry_Dash) :
  reachable gd →
  (size gd ≤ maxSize gd)%nat ∧
  maxSize Geometry_Dash_default = 15%nat ∧
  (∀ figure,
     addFigure figure gd =
       if bool_decide (size gd < maxSize gd)%nat
       then (true, mkGeometry_Dash (figures gd ++ [figure]) (maxSize gd))
       else (false, gd)) ∧
  (∀ count draws, ∃ added,
     exec (generateRandomFigures count draws) gd
       = mkGeometry_Dash (figures gd ++ added) (maxSize gd) ∧
     (size gd + length added ≤ maxSize gd)%nat).
Proof.
  intros Hgd. pose proof (reachable_within_capacity gd Hgd) as Hcap.
  split_and!; [done|done| |].
  - intros figure. unfold addFigure.
    destruct (Nat.ltb_spec (size gd) (maxSize gd)).
    + by rewrite bool_decide_eq_true_2.
    + rewrite bool_decide_eq_false_2; [done|lia].
  - intros count draws.
    destruct (generate_from_appends count 0 draws gd) as (added & Hgen & Hlen).
    exists added. split; [done|]. lia.
Qed.

(** The cap at a collection that is full. *)
Lemma figure_count_capped_witness :
  (size full_collection ≤ maxSize full_collection)%nat ∧
  maxSize Geometry_Dash_default = 15%nat ∧
  (∀ figure,
     addFigure figure full_collection =
       if bool_decide (size full_collection < maxSize full_collection)%nat
       then (true, mkGeometry_Dash (figures full_collection ++ [figure])
                     (maxSize full_collection))
       else (false, full_collection)) ∧
  (∀ count draws, ∃ added,
     exec (generateRandomFigures count draws) full_collection
       = mkGeometry_Dash (figures full_collection ++ added)
           (maxSize full_collection) ∧
     (size full_collection + length added ≤ maxSize full_collection)%nat).
Proof.
  apply (figure_count_capped full_collection).
  unfold full_collection. apply reach_addFigure, reach_addFigure, reach_new.
Defined.

(** *** Further properties of the shapes *)

Lemma setSize1_valid p fig : sizes_valid fig → sizes_valid (exec (setSize1 p) fig).
Proof.
  intros (H1 & H2 & H3). unfold exec, setSize1, mbind, M_bind, bind; simpl.
  destruct (dge p zero) eqn:Hp; simpl; by split_and!.
Qed.

Lemma setSize2_valid p fig : sizes_valid fig → sizes_valid (exec (setSize2 p) fig).
Proof.
  intros (H1 & H2 & H3). unfold exec, setSize2, mbind, M_bind, bind; simpl.
  destruct (dge p zero) eqn:Hp; simpl; by split_and!.
Qed.

Lemma setSize3_valid p fig : sizes_valid fig → sizes_valid (exec (setSize3 p) fig).
Proof.
  intros (H1 & H2 & H3). unfold exec, setSize3, mbind, M_bind, bind; simpl.
  destruct (dge p zero) eqn:Hp; simpl; by split_and!.
Qed.

Lemma bind_valid (m1 m2 : M Figure exn ()) :
  (∀ fig, sizes_valid fig → sizes_valid (exec m1 fig)) →
  (∀ fig, sizes_valid fig → sizes_valid (exec m2 fig)) →
  ∀ fig, sizes_valid fig → sizes_valid (exec (m1;; m2) fig).
Proof.
  intros Hm1 Hm2 fig Hfig. specialize (Hm1 fig Hfig).
  unfold exec, mbind, M_bind, bind in *.
  destruct (m1 fig) as [[[]|e] fig1]; simpl in *; [by apply Hm2|done].
Qed.

Lemma construct_valid derived body shape :
  (∀ fig, sizes_valid fig → sizes_valid (exec body fig)) →
  (∀ fig, base (derived fig) = fig) →
  construct derived body = Ok shape → sizes_valid (base shape).
Proof.
  intros Hbody Hbase. unfold construct.
  assert (sizes_valid Figure_new) as Hnew by done.
  specialize (Hbody Figure_new Hnew). unfold exec in Hbody.
  destruct (body Figure_new) as [[[]|e] fig]; simpl in *; [|done].
  intros [= <-]. by rewrite Hbase.
Qed.

(** X9: no figure ever has a negative or NaN size: the sizes of an object
    made by a constructor of [Square], [Rectangle] or [Triangle] are all
    greater than or equal to zero, and the setters keep them so. *)
Theorem built_sizes_valid (shape : Shape) :
  built shape → sizes_valid (base shape).
Proof.
  induction 1 as [side shape Hnew|width height shape Hnew|a b c shape Hnew
                 |shape p _ IH|shape p _ IH|shape p _ IH].
  - eapply (construct_valid Square); [|done|exact Hnew].
    repeat apply bind_valid; auto using setSize1_valid, setSize2_valid, setSize3_valid.
  - eapply (construct_valid Rectangle); [|done|exact Hnew].
    repeat apply bind_valid; auto using setSize1_valid, setSize2_valid, setSize3_valid.
  - eapply (construct_valid Triangle); [|done|exact Hnew].
    intros fig Hfig. destruct (_ || _); [done|]. revert fig Hfig.
    repeat apply bind_valid; auto using setSize1_valid, setSize2_valid, setSize3_valid.
  - destruct shape; simpl in *; by apply setSize1_valid.
  - destruct shape; simpl in *; by apply setSize2_valid.
  - destruct shape; simpl in *; by apply setSize3_valid.
Qed.

(** A rectangle 2.5 by 0 whose width a caller then tries to make NaN. *)
Lemma built_sizes_valid_witness :
  sizes_valid
    (base (with_base
             (Rectangle (mkFigure (S754_finite false 5629499534213120 (-51)) zero zero))
             (exec (setSize1 S754_nan)
                (base (Rectangle
                         (mkFigure (S754_finite false 5629499534213120 (-51)) zero zero)))))).
Proof.
  apply (built_sizes_valid
           (with_base
              (Rectangle (mkFigure (S754_finite false 5629499534213120 (-51)) zero zero))
              (exec (setSize1 S754_nan)
                 (base (Rectangle
                          (mkFigure (S754_finite false 5629499534213120 (-51)) zero zero)))))).
  apply built_setSize1.
  apply (built_Rectangle (S754_finite false 5629499534213120 (-51)) zero).
  reflexivity.
Defined.

(** X10: [getFigure] returns a null pointer outside the collection; after
    a successful [addFigure] the figure is the last one, the earlier ones
    are where they were, and removing the last one gives back the
    collection as it was. *)
Theorem addFigure_then_removeFigure (figure : option Shape) (gd : Geometry_Dash) :
  (size gd < maxSize gd)%nat →
  (addFigure figure gd).1 = true ∧
  size (addFigure figure gd).2 = S (size gd) ∧
  getFigure (size gd) (addFigure figure gd).2 = figure ∧
  (∀ index, (index < size gd)%nat →
     getFigure index (addFigure figure gd).2 = getFigure index gd) ∧
  (∀ index, (size gd < index)%nat → getFigure index (addFigure figure gd).2 = None) ∧
  removeFigure (size gd) (addFigure figure gd).2 = (true, gd).
Proof.
  intros Hroom. unfold addFigure.
  destruct (Nat.ltb_spec (size gd) (maxSize gd)); [|lia]. simpl.
  assert (size (mkGeometry_Dash (figures gd ++ [figure]) (maxSize gd)) = S (size gd))
    as Hsize.
  { unfold size; simpl. rewrite length_app. simpl. lia. }
  split_and!; try done.
  - unfold getFigure. rewrite Hsize.
    destruct (Nat.ltb_spec (size gd) (S (size gd))); [|lia]. simpl.
    unfold size. by rewrite lookup_app_r, Nat.sub_diag.
  - intros index Hindex. unfold getFigure. rewrite Hsize.
    destruct (Nat.ltb_spec index (S (size gd))), (Nat.ltb_spec index (size gd));
      try lia. simpl. by rewrite lookup_app_l.
  - intros index Hindex. unfold getFigure. rewrite Hsize.
    destruct (Nat.ltb_spec index (S (size gd))); [lia|done].
  - unfold removeFigure. rewrite Hsize.
    destruct (Nat.ltb_spec (size gd) (S (size gd))); [|lia]. simpl.
    unfold size. rewrite delete_middle. rewrite app_nil_r. by destruct gd.
Qed.

Lemma addFigure_then_removeFigure_witness :
  (addFigure None Geometry_Dash_default).1 = true ∧
  size (addFigure None Geometry_Dash_default).2 = S (size Geometry_Dash_default) ∧
  getFigure (size Geometry_Dash_default) (addFigure None Geometry_Dash_default).2 = None ∧
  (∀ index, (index < size Geometry_Dash_default)%nat →
     getFigure index (addFigure None Geometry_Dash_default).2
       = getFigure index Geometry_Dash_default) ∧
  (∀ index, (size Geometry_Dash_default < index)%nat →
     getFigure index (addFigure None Geometry_Dash_default).2 = None) ∧
  removeFigure (size Geometry_Dash_default) (addFigure None Geometry_Dash_default).2
    = (true, Geometry_Dash_default).
Proof.
  apply (addFigure_then_removeFigure None Geometry_Dash_default).
  unfold size, Geometry_Dash_default; simpl. lia.
Defined.

(** X11: [removeFigure] returns false and changes nothing when the index
    is outside the collection; otherwise it returns true, the collection
    has one figure less, the figures before the index stay and the ones
    after it move down by one. *)
Theorem removeFigure_shifts (index : nat) (gd : Geometry_Dash) :
  if bool_decide (index < size gd)%nat then
    (removeFigure index gd).1 = true ∧
    S (size (removeFigure index gd).2) = size gd ∧
    maxSize (removeFigure index gd).2 = maxSize gd ∧
    ∀ j, getFigure j (removeFigure index gd).2
         = getFigure (if bool_decide (j < index)%nat then j else S j) gd
  else removeFigure index gd = (false, gd).
Proof.
  unfold removeFigure. case_bool_decide as Hindex.
  - destruct (Nat.ltb_spec index (size gd)); [|lia]. simpl.
    assert (S (size (mkGeometry_Dash (delete index (figures gd)) (maxSize gd))) = size gd)
      as Hsize.
    { unfold size in *; simpl. rewrite length_delete; [lia|].
      by apply lookup_lt_is_Some_2. }
    split_and!; try done.
    intros j. unfold getFigure. case_bool_decide as Hj.
    + destruct (Nat.ltb_spec j (size (mkGeometry_Dash (delete index (figures gd))
                                         (maxSize gd)))),
               (Nat.ltb_spec j (size gd)); try lia.
      simpl. by rewrite list_lookup_delete_lt.
    + destruct (Nat.ltb_spec j (size (mkGeometry_Dash (delete index (figures gd))
                                         (maxSize gd)))),
               (Nat.ltb_spec (S j) (size gd)); try lia; [|done].
      simpl. rewrite list_lookup_delete_ge; [done|lia].
  - destruct (Nat.ltb_spec index (size gd)); [lia|done].
Qed.






Lemma SFcompare_gt_trans x y z :
  SFcompare x y = Some Gt → SFcompare y z = Some Gt → SFcompare x z = Some Gt.
Proof.
  destruct x as [sx|sx| |sx mx ex], y as [sy|sy| |sy my ey], z as [sz|sz| |sz mz ez];
    simpl; try discriminate; try reflexivity;
    try (destruct sx, sy; simpl; congruence);
    try (destruct sy, sz; simpl; congruence);
    try (destruct sx, sz; simpl; congruence);
    try (destruct sx, sy, sz; simpl; congruence).
  destruct sx, sy, sz; simpl; try congruence;
    change (Pos.compare_cont Eq) with Pos.compare;
    destruct (Z.compare_spec ex ey), (Z.compare_spec ey ez), (Z.compare_spec ex ez);
    simpl; try congruence; try lia;
    destruct (Pos.compare_spec mx my), (Pos.compare_spec my mz), (Pos.compare_spec mx mz);
    simpl; try congruence; try lia.
Qed.

Lemma dgt_trans x y z : dgt x y = true → dgt y z = true → dgt x z = true.
Proof.
  unfold dgt. intros Hxy Hyz.
  rewrite (SFcompare_gt_trans x y z); [done| |].
  - by destruct (SFcompare x y) as [[]|].
  - by destruct (SFcompare y z) as [[]|].
Qed.

Lemma dgt_irrefl x : dgt x x = false.
Proof.
  unfold dgt. destruct x as [s|s| |s m e]; simpl; try done; destruct s; try done;
    rewrite Z.compare_refl; change (Pos.compare_cont Eq m m) with (m ?= m)%positive;
    by rewrite Pos.compare_refl.
Qed.

Lemma findMaxPerimeter_from_spec maxFigure (rest : list Shape) :
  ∃ result,
    findMaxPerimeter_from maxFigure (Some <$> rest) = Some result ∧
    result ∈ maxFigure :: rest ∧
    (result = maxFigure ∨ dgt (perimeter result) (perimeter maxFigure) = true) ∧
    Forall (λ figure, dgt (perimeter figure) (perimeter result) = false) rest.
Proof.
  revert maxFigure. induction rest as [|figure rest IH]; intros maxFigure.
  - exists maxFigure. split_and!; [done|by left|by left|done].
  - rewrite fmap_cons. cbn [findMaxPerimeter_from].
    destruct (dgt (perimeter figure) (perimeter maxFigure)) eqn:Hgt.
    + destruct (IH figure) as (result & -> & Hin & Hrel & Hall).
      exists result. split_and!; [done|by right| |].
      * right. destruct Hrel as [->|Hrel]; [done|]. by eapply dgt_trans.
      * constructor; [|done]. destruct Hrel as [->|Hrel]; [apply dgt_irrefl|].
        apply not_true_iff_false. intros Hback.
        pose proof (dgt_trans _ _ _ Hrel Hback) as Hself.
        by rewrite dgt_irrefl in Hself.
    + destruct (IH maxFigure) as (result & -> & Hin & Hrel & Hall).
      exists result. split_and!; [done| |done|].
      * apply elem_of_cons in Hin as [->|Hin]; [by left|by do 2 right].
      * constructor; [|done]. destruct Hrel as [->|Hrel]; [done|].
        apply not_true_iff_false. intros Hback.
        pose proof (dgt_trans _ _ _ Hback Hrel) as Habove. congruence.
Qed.

(** X13: [findMaxPerimeter] returns a null pointer for an empty
    collection; for a collection of figures without null pointers it
    returns one of them, and no figure of the collection has a perimeter
    greater than the one returned. *)
Theorem findMaxPerimeter_greatest (shapes : list Shape) (gd : Geometry_Dash) :
  figures gd = Some <$> shapes →
  match shapes with
  | [] => findMaxPerimeter gd = Some None
  | _ :: _ =>
      ∃ result,
        findMaxPerimeter gd = Some (Some result) ∧
        result ∈ shapes ∧
        Forall (λ figure, dgt (perimeter figure) (perimeter result) = false) shapes
  end.
Proof.
  intros Hfigures. unfold findMaxPerimeter. rewrite Hfigures.
  destruct shapes as [|first rest]; simpl; [done|].
  destruct (findMaxPerimeter_from_spec first rest) as (result & Hloop & Hin & Hrel & Hall).
  exists result. split_and!; [|done|].
  - destruct rest as [|second rest]; simpl in *; [by injection Hloop as ->|].
    by rewrite Hloop.
  - constructor; [|done]. destruct Hrel as [->|Hrel]; [apply dgt_irrefl|].
    apply not_true_iff_false. intros Hback.
    pose proof (dgt_trans _ _ _ Hrel Hback) as Hself.
    by rewrite dgt_irrefl in Hself.
Qed.

(** A square of side 2.5 and a rectangle 2.5 by 2.5: equal perimeters, the
    first is returned. *)
Lemma findMaxPerimeter_greatest_witness :
  ∃ result,
    findMaxPerimeter
      (mkGeometry_Dash
         [ Some (Square (mkFigure (S754_finite false 5629499534213120 (-51)) zero zero));
           Some (Rectangle (mkFigure (S754_finite false 5629499534213120 (-51))
                              (S754_finite false 5629499534213120 (-51)) zero)) ] 15)
      = Some (Some result) ∧
    result ∈
      [ Square (mkFigure (S754_finite false 5629499534213120 (-51)) zero zero);
        Rectangle (mkFigure (S754_finite false 5629499534213120 (-51))
                     (S754_finite false 5629499534213120 (-51)) zero) ] ∧
    Forall (λ figure, dgt (perimeter figure) (perimeter result) = false)
      [ Square (mkFigure (S754_finite false 5629499534213120 (-51)) zero zero);
        Rectangle (mkFigure (S754_finite false 5629499534213120 (-51))
                     (S754_finite false 5629499534213120 (-51)) zero) ].
Proof.
  apply (findMaxPerimeter_greatest
           [ Square (mkFigure (S754_finite false 5629499534213120 (-51)) zero zero);
             Rectangle (mkFigure (S754_finite false 5629499534213120 (-51))
                          (S754_finite false 5629499534213120 (-51)) zero) ]).
  reflexivity.
Defined.

End Lab5.

(** ** U.LAB.8: the media library *)
Module Lab8.
Import Std.

(** The two classes implementing [IMedia], with their data members. *)
Inductive IMedia : Type :=
| Book (id_ title_ author_ : string)
| Audio (id_ title_ : string) (durationSeconds_ : Z).

Definition getId (media : IMedia) : string :=
  match media with
  | Book id_ _ _ => id_
  | Audio id_ _ _ => id_
  end.

Definition getTitle (media : IMedia) : string :=
  match media with
  | Book _ title_ _ => title_
  | Audio _ title_ _ => title_
  end.

(** [storage_] holds owning pointers, [None] once reset; [index_] maps an
    id to its position in [storage_]. *)
Record InMemoryMediaRepository : Type := mkRepository {
  storage_ : list (option IMedia);
  index_ : gmap string nat
}.

Definition Repository_new : InMemoryMediaRepository := mkRepository [] ∅.

(** [media] is the [unique_ptr] argument, [None] when null. *)
Definition addMedia (media : option IMedia) (repo : InMemoryMediaRepository) :
    bool * InMemoryMediaRepository :=
  match media with
  | None => (false, repo)
  | Some m =>
      let id := getId m in
      match index_ repo !! id with
      | Some _ => (false, repo)
      | None =>
          (true, mkRepository (storage_ repo ++ [Some m])
                              (<[id := length (storage_ repo)]> (index_ repo)))
      end
  end.

(** [storage_[idx].reset()] then [index_.erase(id)].  An index outside
    [storage_] is undefined behaviour in the source and changes nothing
    here; it does not occur in a repository built by these operations. *)
Definition removeMedia (id : string) (repo : InMemoryMediaRepository) :
    bool * InMemoryMediaRepository :=
  match index_ repo !! id with
  | Some idx =>
      (true, mkRepository (<[idx := None]> (storage_ repo)) (delete id (index_ repo)))
  | None => (false, repo)
  end.

(** The returned pointer is the object it points to, [None] when null. *)
Definition findMedia (id : string) (repo : InMemoryMediaRepository) : option IMedia :=
  match index_ repo !! id with
  | Some idx => mjoin (storage_ repo !! idx)
  | None => None
  end.

Definition getAllMedia (repo : InMemoryMediaRepository) : list IMedia :=
  omap (λ ptr, ptr) (storage_ repo).

(** [InMemoryMediaRepository::exists] ([exists] is a keyword here). *)
Definition exists_ (id : string) (repo : InMemoryMediaRepository) : bool :=
  bool_decide (is_Some (index_ repo !! id)).

Record User : Type := mkUser {
  id_ : string;
  name_ : string;
  issuedMediaIds_ : list string
}.

(** [User(id, name)]: no media issued. *)
Definition User_new (id name : string) : User := mkUser id name [].

Definition issueMedia (mediaId : string) (user : User) : User :=
  mkUser (id_ user) (name_ user) (issuedMediaIds_ user ++ [mediaId]).

(** [std::remove] then [erase]: every occurrence goes. *)
Definition returnMedia (mediaId : string) (user : User) : User :=
  mkUser (id_ user) (name_ user)
         (filter (λ issued, issued ≠ mediaId) (issuedMediaIds_ user)).

Definition hasMedia (mediaId : string) (user : User) : bool :=
  bool_decide (mediaId ∈ issuedMediaIds_ user).

(** [users_] owns the users; [addUser] stores no null pointer, so a stored
    value is a [User]. *)
Record InMemoryUserManager : Type := mkUserManager {
  users_ : gmap string User
}.

Definition UserManager_new : InMemoryUserManager := mkUserManager ∅.

Definition addUser (user : option User) (manager : InMemoryUserManager) :
    bool * InMemoryUserManager :=
  match user with
  | None => (false, manager)
  | Some u =>
      match users_ manager !! id_ u with
      | Some _ => (false, manager)
      | None => (true, mkUserManager (<[id_ u := u]> (users_ manager)))
      end
  end.

(** [InMemoryUserManager::exists]. *)
Definition user_exists (id : string) (manager : InMemoryUserManager) : bool :=
  bool_decide (is_Some (users_ manager !! id)).

Definition getUser (id : string) (manager : InMemoryUserManager) : option User :=
  users_ manager !! id.

(** The loop over [users_] returns true at the first user holding the
    media. *)
Definition isMediaIssued (mediaId : string) (manager : InMemoryUserManager) : bool :=
  existsb (λ pair, hasMedia mediaId pair.2) (map_to_list (users_ manager)).

(** The two objects a [Library] refers to. *)
Record Library : Type := mkLibrary {
  mediaRepo_ : InMemoryMediaRepository;
  userManager_ : InMemoryUserManager
}.

Definition Library_new : Library := mkLibrary Repository_new UserManager_new.

(** [user] points into [users_]: a change made through it is a change of
    the entry under [userId]. *)
Definition issueMediaToUser (mediaId userId : string) (lib : Library) :
    bool * Library :=
  match getUser userId (userManager_ lib) with
  | None => (false, lib)
  | Some user =>
      match findMedia mediaId (mediaRepo_ lib) with
      | None => (false, lib)
      | Some media =>
          if isMediaIssued mediaId (userManager_ lib) then (false, lib)
          else
            (true, mkLibrary (mediaRepo_ lib)
                     (mkUserManager (<[userId := issueMedia mediaId user]>
                                       (users_ (userManager_ lib)))))
      end
  end.

Definition returnMediaFromUser (mediaId userId : string) (lib : Library) :
    bool * Library :=
  match getUser userId (userManager_ lib) with
  | None => (false, lib)
  | Some user =>
      if negb (hasMedia mediaId user) then (false, lib)
      else
        (true, mkLibrary (mediaRepo_ lib)
                 (mkUserManager (<[userId := returnMedia mediaId user]>
                                   (users_ (userManager_ lib)))))
  end.

(** Calls on a repository, and the repository after a sequence of them. *)
Inductive repo_op : Type :=
| AddMedia (media : option IMedia)
| RemoveMedia (id : string).

Definition repo_call (o : repo_op) (repo : InMemoryMediaRepository) :
    InMemoryMediaRepository :=
  match o with
  | AddMedia media => (addMedia media repo).2
  | RemoveMedia id => (removeMedia id repo).2
  end.

Definition repo_run (ops : list repo_op) : InMemoryMediaRepository :=
  foldl (λ repo o, repo_call o repo) Repository_new ops.

(** Calls the program makes on the repository, the user manager and the
    library; a user is added as the program does it, freshly constructed
    from an id and a name. *)
Inductive op : Type :=
| OnRepository (o : repo_op)
| AddUser (id name : string)
| IssueMediaToUser (mediaId userId : string)
| ReturnMediaFromUser (mediaId userId : string).

Definition call (o : op) (lib : Library) : Library :=
  match o with
  | OnRepository o' => mkLibrary (repo_call o' (mediaRepo_ lib)) (userManager_ lib)
  | AddUser id name =>
      mkLibrary (mediaRepo_ lib) (addUser (Some (User_new id name)) (userManager_ lib)).2
  | IssueMediaToUser mediaId userId => (issueMediaToUser mediaId userId lib).2
  | ReturnMediaFromUser mediaId userId => (returnMediaFromUser mediaId userId lib).2
  end.

Definition run (ops : list op) : Library :=
  foldl (λ lib o, call o lib) Library_new ops.

(** User [userId] has [mediaId] in the issued list. *)
Definition holds (manager : InMemoryUserManager) (userId mediaId : string) : Prop :=
  ∃ user, users_ manager !! userId = Some user ∧ mediaId ∈ issuedMediaIds_ user.

(** Every media id is in the issued list of at most one user. *)
Definition at_most_one_holder (manager : InMemoryUserManager) : Prop :=
  ∀ mediaId userId1 userId2,
    holds manager userId1 mediaId → holds manager userId2 mediaId →
    userId1 = userId2.

(** The index and the storage agree: an indexed id leads to a stored media
    with that id, and a stored media is indexed at its position. *)
Definition repo_wf (repo : InMemoryMediaRepository) : Prop :=
  (∀ id idx, index_ repo !! id = Some idx →
     ∃ m, storage_ repo !! idx = Some (Some m) ∧ getId m = id) ∧
  (∀ idx m, storage_ repo !! idx = Some (Some m) →
     index_ repo !! getId m = Some idx).

(** What every library built by the program satisfies. *)
Definition lib_wf (lib : Library) : Prop :=
  repo_wf (mediaRepo_ lib) ∧ at_most_one_holder (userManager_ lib).

(** The calls of [setupInitialData]. *)
Definition initial_data : list op :=
  [ OnRepository (AddMedia (Some (Book "B101" "The Martian" "Andy Weir")));
    OnRepository (AddMedia (Some (Audio "A201" "Dune Audiobook" 30000)));
    OnRepository (AddMedia (Some (Book "B102" "Neuromancer" "William Gibson")));
    AddUser "U001" "Alice"; AddUser "U002" "Bob" ].

(** *** Properties of the repository *)

Example issue_once :
  (issueMediaToUser "B101" "U001" (run initial_data)).1 = true.
Proof. vm_compute. reflexivity. Qed.

Example issue_twice :
  (issueMediaToUser "B101" "U002"
     (run (initial_data ++ [IssueMediaToUser "B101" "U001"]))).1 = false.
Proof. vm_compute. reflexivity. Qed.

Example issue_after_return :
  (issueMediaToUser "B101" "U002"
     (run (initial_data ++ [ IssueMediaToUser "B101" "U001";
                             ReturnMediaFromUser "B101" "U001" ]))).1 = true.
Proof. vm_compute. reflexivity. Qed.

Example removed_media_is_skipped :
  getAllMedia (repo_call (RemoveMedia "A201") (mediaRepo_ (run initial_data))) =
    [ Book "B101" "The Martian" "Andy Weir";
      Book "B102" "Neuromancer" "William Gibson" ].
Proof. vm_compute. reflexivity. Qed.

Lemma repo_wf_new : repo_wf Repository_new.
Proof. split; simpl; intros; simplify_map_eq. Qed.

Lemma repo_wf_addMedia media repo :
  repo_wf repo → repo_wf (addMedia media repo).2.
Proof.
  intros [Hidx Hsto]. unfold addMedia.
  destruct media as [m|]; [|done].
  destruct (index_ repo !! getId m) as [idx0|] eqn:Hfresh; [done|].
  split; simpl.
  - intros id idx. rewrite lookup_insert. case_decide as Hid.
    + intros [= <-]. exists m. split; [|done].
      by rewrite lookup_app_r, Nat.sub_diag.
    + intros Hlook. destruct (Hidx _ _ Hlook) as (m' & Hm' & Hid').
      exists m'. split; [|done].
      rewrite lookup_app_l; [done|]. by eapply lookup_lt_Some.
  - intros idx m' Hlook.
    apply lookup_app_Some in Hlook as [Hold|[Hge Hnew]].
    + rewrite lookup_insert_ne; [by apply Hsto|].
      intros Heq. rewrite Heq, (Hsto _ _ Hold) in Hfresh. done.
    + apply list_lookup_singleton_Some in Hnew as [Hzero [= <-]].
      rewrite lookup_insert_eq. f_equal. lia.
Qed.

Lemma repo_wf_removeMedia id repo :
  repo_wf repo → repo_wf (removeMedia id repo).2.
Proof.
  intros [Hidx Hsto]. unfold removeMedia.
  destruct (index_ repo !! id) as [idx0|] eqn:Hid; [|done].
  split; simpl.
  - intros id' idx. rewrite lookup_delete. case_decide as Hne; [done|].
    intros Hlook. destruct (Hidx _ _ Hlook) as (m' & Hm' & Hid').
    exists m'. split; [|done].
    rewrite list_lookup_insert_ne; [done|].
    intros <-. destruct (Hidx _ _ Hid) as (m0 & Hm0 & Hid0). congruence.
  - intros idx m' Hlook.
    destruct (decide (idx0 = idx)) as [<-|Hne].
    + apply list_lookup_insert_Some in Hlook as [(_ & ? & _)|(? & _)]; done.
    + rewrite list_lookup_insert_ne in Hlook by done.
      rewrite lookup_delete_ne; [by apply Hsto|].
      intros Heq. rewrite Heq, (Hsto _ _ Hlook) in Hid. congruence.
Qed.

Lemma repo_wf_call o repo : repo_wf repo → repo_wf (repo_call o repo).
Proof.
  destruct o; simpl; [apply repo_wf_addMedia|apply repo_wf_removeMedia].
Qed.

Lemma repo_wf_run ops : repo_wf (repo_run ops).
Proof.
  unfold repo_run. induction ops as [|o ops IH] using rev_ind.
  - apply repo_wf_new.
  - rewrite foldl_snoc. by apply repo_wf_call.
Qed.

Lemma exists_findMedia id repo :
  repo_wf repo →
  exists_ id repo = true ↔ ∃ m, findMedia id repo = Some m ∧ getId m = id.
Proof.
  intros [Hidx _]. unfold exists_, findMedia. rewrite bool_decide_eq_true.
  destruct (index_ repo !! id) as [idx|] eqn:Hid.
  - split; [intros _|by eauto].
    destruct (Hidx _ _ Hid) as (m & Hm & Hidm). exists m. by rewrite Hm.
  - split; [by intros [? ?]|by intros (? & ? & _)].
Qed.

Lemma elem_of_getAllMedia (m : IMedia) (storage : list (option IMedia)) :
  m ∈ omap (λ ptr : option IMedia, ptr) storage ↔ ∃ idx, storage !! idx = Some (Some m).
Proof.
  rewrite list_elem_of_omap. split.
  - intros (ptr & Hin & ->). by apply list_elem_of_lookup in Hin.
  - intros [idx Hidx]. exists (Some m). split; [|done].
    apply list_elem_of_lookup. eauto.
Qed.

(** Media at different positions have different ids, so the listing has
    no id twice. *)
Lemma getAllMedia_NoDup (storage : list (option IMedia)) :
  (∀ i j m1 m2, storage !! i = Some (Some m1) → storage !! j = Some (Some m2) →
                getId m1 = getId m2 → i = j) →
  NoDup (getId <$> omap (λ ptr : option IMedia, ptr) storage).
Proof.
  induction storage as [|ptr storage IH]; intros Hinj; simpl; [constructor|].
  assert (NoDup (getId <$> omap (λ ptr : option IMedia, ptr) storage)) as Hrest.
  { apply IH. intros i j m1 m2 Hi Hj Heq.
    by pose proof (Hinj (S i) (S j) m1 m2 Hi Hj Heq) as [= ->]. }
  destruct ptr as [m|]; simpl; [|done].
  constructor; [|done].
  rewrite list_elem_of_fmap. intros (m' & Heq & Hin).
  apply elem_of_getAllMedia in Hin as [j Hj].
  by pose proof (Hinj 0%nat (S j) m m' eq_refl Hj Heq).
Qed.

(** C10: after any sequence of [addMedia] and [removeMedia] calls,
    [exists(id)] holds if and only if [findMedia(id)] returns a media whose
    id is [id], and [getAllMedia] lists the indexed ids, each once. *)
Theorem repository_index_consistent (ops : list repo_op) :
  (∀ id, exists_ id (repo_run ops) = true
         ↔ ∃ m, findMedia id (repo_run ops) = Some m ∧ getId m = id) ∧
  (∀ id, id ∈ getId <$> getAllMedia (repo_run ops)
         ↔ exists_ id (repo_run ops) = true) ∧
  NoDup (getId <$> getAllMedia (repo_run ops)).
Proof.
  pose proof (repo_wf_run ops) as Hwf.
  split_and!.
  - intros id. by apply exists_findMedia.
  - intros id. destruct Hwf as [Hidx Hsto].
    unfold getAllMedia, exists_. rewrite bool_decide_eq_true, list_elem_of_fmap.
    split.
    + intros (m & -> & Hin). apply elem_of_getAllMedia in Hin as [idx Hin].
      rewrite (Hsto _ _ Hin). by eexists.
    + intros [idx Hid]. destruct (Hidx _ _ Hid) as (m & Hm & Hidm).
      exists m. split; [done|]. apply elem_of_getAllMedia. by exists idx.
  - apply getAllMedia_NoDup. destruct Hwf as [_ Hsto].
    intros i j m1 m2 Hi Hj Heq.
    apply Hsto in Hi, Hj. rewrite Heq in Hi. congruence.
Qed.

(** *** Properties of the library *)

Lemma isMediaIssued_true mediaId manager :
  isMediaIssued mediaId manager = true ↔ ∃ userId, holds manager userId mediaId.
Proof.
  unfold isMediaIssued, holds, hasMedia. rewrite existsb_exists. split.
  - intros ([userId user] & Hin & Hhas). simpl in Hhas.
    apply list_elem_of_In, elem_of_map_to_list in Hin.
    apply bool_decide_eq_true in Hhas. eauto.
  - intros (userId & user & Hlook & Hhas). exists (userId, user). split.
    + by apply list_elem_of_In, elem_of_map_to_list.
    + by apply bool_decide_eq_true.
Qed.

Lemma hasMedia_true mediaId user :
  hasMedia mediaId user = true ↔ mediaId ∈ issuedMediaIds_ user.
Proof. apply bool_decide_eq_true. Qed.

(** [issueMediaToUser], case by case. *)
Lemma issueMediaToUser_unfold mediaId userId lib :
  (∃ user media,
     users_ (userManager_ lib) !! userId = Some user ∧
     findMedia mediaId (mediaRepo_ lib) = Some media ∧
     isMediaIssued mediaId (userManager_ lib) = false ∧
     issueMediaToUser mediaId userId lib =
       (true, mkLibrary (mediaRepo_ lib)
                (mkUserManager (<[userId := issueMedia mediaId user]>
                                  (users_ (userManager_ lib))))))
  ∨
  ((users_ (userManager_ lib) !! userId = None ∨
    findMedia mediaId (mediaRepo_ lib) = None ∨
    isMediaIssued mediaId (userManager_ lib) = true) ∧
   issueMediaToUser mediaId userId lib = (false, lib)).
Proof.
  unfold issueMediaToUser, getUser.
  destruct (users_ (userManager_ lib) !! userId) as [user|]; [|by right; auto].
  destruct (findMedia mediaId (mediaRepo_ lib)) as [media|]; [|by right; auto].
  destruct (isMediaIssued mediaId (userManager_ lib)) eqn:Hissued; [by right; auto|].
  left. by exists user, media.
Qed.

Lemma issueMediaToUser_preserves mediaId userId lib :
  at_most_one_holder (userManager_ lib) →
  at_most_one_holder (userManager_ (issueMediaToUser mediaId userId lib).2).
Proof.
  intros Hamo.
  destruct (issueMediaToUser_unfold mediaId userId lib)
    as [(user & media & Huser & _ & Hfree & ->)|[_ ->]]; [|done].
  simpl. intros m u1 u2 (user1 & Hu1 & Hm1) (user2 & Hu2 & Hm2); simpl in *.
  assert (∀ u, ¬ holds (userManager_ lib) u mediaId) as Hnone.
  { intros u Hu. apply not_true_iff_false in Hfree. apply Hfree.
    apply isMediaIssued_true. eauto. }
  assert (∀ u usr, <[userId := issueMedia mediaId user]> (users_ (userManager_ lib)) !! u
                     = Some usr →
                   m ∈ issuedMediaIds_ usr →
                   holds (userManager_ lib) u m ∨ (u = userId ∧ m = mediaId)) as Hcases.
  { intros u usr Hlook Hin. rewrite lookup_insert in Hlook. case_decide as Hu.
    - injection Hlook as <-. simpl in Hin. subst u.
      apply elem_of_app in Hin as [Hin|Hin].
      + left. by exists user.
      + right. split; [done|]. by apply list_elem_of_singleton in Hin.
    - left. by exists usr. }
  destruct (Hcases _ _ Hu1 Hm1) as [Hold1|[-> ->]],
           (Hcases _ _ Hu2 Hm2) as [Hold2|[-> Hm]]; subst; try done.
  - by apply (Hamo m).
  - by destruct (Hnone u1).
  - by destruct (Hnone u2).
Qed.

Lemma returnMediaFromUser_preserves mediaId userId lib :
  at_most_one_holder (userManager_ lib) →
  at_most_one_holder (userManager_ (returnMediaFromUser mediaId userId lib).2).
Proof.
  intros Hamo. unfold returnMediaFromUser, getUser.
  destruct (users_ (userManager_ lib) !! userId) as [user|] eqn:Huser; [|done].
  destruct (hasMedia mediaId user); simpl; [|done].
  assert (∀ u m, holds (mkUserManager (<[userId := returnMedia mediaId user]>
                                         (users_ (userManager_ lib)))) u m →
                 holds (userManager_ lib) u m) as Hsub.
  { intros u m (usr & Hlook & Hin); simpl in *.
    rewrite lookup_insert in Hlook. case_decide as Hu.
    - injection Hlook as <-. subst u. simpl in Hin.
      apply list_elem_of_filter in Hin as [_ Hin]. by exists user.
    - by exists usr. }
  intros m u1 u2 H1 H2. apply (Hamo m); by apply Hsub.
Qed.

Lemma addUser_new_preserves id name manager :
  at_most_one_holder manager →
  at_most_one_holder (addUser (Some (User_new id name)) manager).2.
Proof.
  intros Hamo. unfold addUser; simpl.
  destruct (users_ manager !! id) as [old|] eqn:Hid; [done|]. simpl.
  assert (∀ u m, holds (mkUserManager (<[id := User_new id name]> (users_ manager))) u m →
                 holds manager u m) as Hsub.
  { intros u m (usr & Hlook & Hin); simpl in *.
    rewrite lookup_insert in Hlook. case_decide as Hu.
    - injection Hlook as <-. simpl in Hin. by apply elem_of_nil in Hin.
    - by exists usr. }
  intros m u1 u2 H1 H2. apply (Hamo m); by apply Hsub.
Qed.

Lemma lib_wf_call o lib : lib_wf lib → lib_wf (call o lib).
Proof.
  intros [Hrepo Hamo]. destruct o as [o'|id name|mediaId userId|mediaId userId].
  - split; simpl; [by apply repo_wf_call|done].
  - split; simpl; [done|by apply addUser_new_preserves].
  - split; [|by apply issueMediaToUser_preserves]. simpl.
    by destruct (issueMediaToUser_unfold mediaId userId lib)
      as [(user & media & _ & _ & _ & ->)|[_ ->]].
  - split; [|by apply returnMediaFromUser_preserves]. simpl.
    unfold returnMediaFromUser.
    destruct (getUser userId (userManager_ lib)); [|done].
    by destruct (negb _).
Qed.

Lemma lib_wf_run ops : lib_wf (run ops).
Proof.
  unfold run. induction ops as [|o ops IH] using rev_ind.
  - split; [apply repo_wf_new|]. by intros m u1 u2 (user & Hlook & _).
  - rewrite foldl_snoc. by apply lib_wf_call.
Qed.

(** C6: in a library built by the program, [issueMediaToUser] returns true
    if and only if the user exists, the media id is in the repository and
    no user holds it; after every sequence of operations each media id is
    held by at most one user; and from any library where that is so,
    issuing and returning keep it so. *)
Theorem issue_exclusive (ops : list op) (mediaId userId : string) :
  ((issueMediaToUser mediaId userId (run ops)).1 = true
   ↔ user_exists userId (userManager_ (run ops)) = true ∧
     exists_ mediaId (mediaRepo_ (run ops)) = true ∧
     ¬ ∃ holder, holds (userManager_ (run ops)) holder mediaId) ∧
  at_most_one_holder (userManager_ (run ops)) ∧
  (∀ lib : Library,
     at_most_one_holder (userManager_ lib) →
     at_most_one_holder (userManager_ (issueMediaToUser mediaId userId lib).2) ∧
     at_most_one_holder (userManager_ (returnMediaFromUser mediaId userId lib).2)).
Proof.
  pose proof (lib_wf_run ops) as [Hrepo Hamo]. split_and!; [|done|]; cycle 1.
  { intros lib Hlib. split.
    - by apply issueMediaToUser_preserves.
    - by apply returnMediaFromUser_preserves. }
  rewrite <- isMediaIssued_true, (exists_findMedia _ _ Hrepo).
  unfold user_exists. rewrite bool_decide_eq_true.
  destruct (issueMediaToUser_unfold mediaId userId (run ops))
    as [(user & media & Huser & Hmedia & Hfree & ->)|[Hfail ->]]; simpl.
  - split; [intros _|done]. split_and!.
    + by rewrite Huser.
    + exists media. split; [done|].
      unfold findMedia in Hmedia.
      destruct (index_ (mediaRepo_ (run ops)) !! mediaId) as [idx|] eqn:Hidx; [|done].
      destruct Hrepo as [Hindex _].
      destruct (Hindex _ _ Hidx) as (m & Hm & Hidm).
      rewrite Hm in Hmedia. simpl in Hmedia. congruence.
    + by rewrite Hfree.
  - split; [done|]. intros (Hu & (m & Hm & _) & Hfree).
    destruct Hfail as [Hnone|[Hnone|Hissued]].
    + rewrite Hnone in Hu. by destruct Hu.
    + congruence.
    + done.
Qed.

(** *** Further properties of the repository and the library *)

Lemma findMedia_in_range repo id idx :
  repo_wf repo → index_ repo !! id = Some idx → (idx < length (storage_ repo))%nat.
Proof.
  intros [Hidx _] Hid. destruct (Hidx _ _ Hid) as (m & Hm & _).
  by eapply lookup_lt_Some.
Qed.

(** X14: in a repository built by [addMedia] and [removeMedia], adding a
    media whose id is already indexed, or a null pointer, returns false and
    changes nothing; adding any other media returns true, after which
    [findMedia] finds it under its id, finds under every other id what it
    found before, and [getAllMedia] lists it last. *)
Theorem addMedia_then_findMedia (ops : list repo_op) (m : IMedia) :
  addMedia None (repo_run ops) = (false, repo_run ops) ∧
  if exists_ (getId m) (repo_run ops)
  then addMedia (Some m) (repo_run ops) = (false, repo_run ops)
  else
    (addMedia (Some m) (repo_run ops)).1 = true ∧
    findMedia (getId m) (addMedia (Some m) (repo_run ops)).2 = Some m ∧
    (∀ id, id ≠ getId m →
       findMedia id (addMedia (Some m) (repo_run ops)).2 = findMedia id (repo_run ops)) ∧
    getAllMedia (addMedia (Some m) (repo_run ops)).2 = getAllMedia (repo_run ops) ++ [m].
Proof.
  pose proof (repo_wf_run ops) as Hwf. split; [done|].
  unfold exists_, addMedia.
  destruct (index_ (repo_run ops) !! getId m) as [idx|] eqn:Hid.
  - by rewrite bool_decide_eq_true_2.
  - rewrite bool_decide_eq_false_2 by (by intros [? ?]). simpl. split_and!; [done| | |].
    + unfold findMedia; simpl. rewrite lookup_insert_eq.
      by rewrite lookup_app_r, Nat.sub_diag.
    + intros id Hne. unfold findMedia; simpl. rewrite lookup_insert_ne by done.
      destruct (index_ (repo_run ops) !! id) as [idx|] eqn:Hidx; [|done].
      rewrite lookup_app_l; [done|]. by eapply findMedia_in_range.
    + unfold getAllMedia; simpl. by rewrite omap_app.
Qed.

Lemma filter_all {A} (P : A → Prop) `{∀ x, Decision (P x)} (l : list A) :
  Forall P l → filter P l = l.
Proof.
  induction 1 as [|x l Hx Hl IH]; [done|].
  rewrite filter_cons_True by done. by rewrite IH.
Qed.

Lemma getAllMedia_reset (storage : list (option IMedia)) idx m0 :
  storage !! idx = Some (Some m0) →
  (∀ j m, storage !! j = Some (Some m) → getId m = getId m0 → j = idx) →
  omap (λ ptr : option IMedia, ptr) (<[idx := None]> storage)
    = filter (λ m, getId m ≠ getId m0) (omap (λ ptr : option IMedia, ptr) storage).
Proof.
  revert idx. induction storage as [|ptr storage IH]; intros idx Hidx Huniq; [done|].
  destruct idx as [|idx]; simpl in *.
  - injection Hidx as ->. simpl. rewrite filter_cons_False by (by intros Hne).
    symmetry. apply filter_all. apply Forall_forall. intros m Hin Heq.
    apply elem_of_getAllMedia in Hin as [j Hj].
    by specialize (Huniq (S j) m Hj Heq).
  - assert (omap (λ ptr : option IMedia, ptr) (<[idx := None]> storage)
            = filter (λ m, getId m ≠ getId m0) (omap (λ ptr : option IMedia, ptr) storage))
      as Hrest.
    { apply IH; [done|]. intros j m Hj Heq.
      by pose proof (Huniq (S j) m Hj Heq) as [= ->]. }
    destruct ptr as [m|]; simpl; [|exact Hrest].
    rewrite filter_cons_True.
    + f_equal. exact Hrest.
    + intros Heq. by specialize (Huniq 0%nat m eq_refl Heq).
Qed.

(** X15: in a repository built by [addMedia] and [removeMedia], removing
    an id that is not indexed returns false and changes nothing; removing
    an indexed id returns true, after which the id does not exist and
    [findMedia] returns a null pointer for it, every other id is found as
    before, and [getAllMedia] lists the same media without that one. *)
Theorem removeMedia_then_findMedia (ops : list repo_op) (id : string) :
  if exists_ id (repo_run ops)
  then
    (removeMedia id (repo_run ops)).1 = true ∧
    exists_ id (removeMedia id (repo_run ops)).2 = false ∧
    findMedia id (removeMedia id (repo_run ops)).2 = None ∧
    (∀ id', id' ≠ id →
       findMedia id' (removeMedia id (repo_run ops)).2 = findMedia id' (repo_run ops)) ∧
    getAllMedia (removeMedia id (repo_run ops)).2
      = filter (λ m, getId m ≠ id) (getAllMedia (repo_run ops))
  else removeMedia id (repo_run ops) = (false, repo_run ops).
Proof.
  pose proof (repo_wf_run ops) as Hwf. unfold exists_, removeMedia.
  destruct (index_ (repo_run ops) !! id) as [idx|] eqn:Hid.
  - rewrite bool_decide_eq_true_2 by done. simpl.
    destruct Hwf as [Hidx Hsto]. destruct (Hidx _ _ Hid) as (m0 & Hm0 & Hidm0).
    split_and!; [done| | | |].
    + apply bool_decide_eq_false_2. rewrite lookup_delete_eq. by intros [? ?].
    + unfold findMedia; simpl. by rewrite lookup_delete_eq.
    + intros id' Hne. unfold findMedia; simpl. rewrite lookup_delete_ne by done.
      destruct (index_ (repo_run ops) !! id') as [idx'|] eqn:Hid'; [|done].
      rewrite list_lookup_insert_ne; [done|].
      intros <-. destruct (Hidx _ _ Hid') as (m' & Hm' & Hidm'). congruence.
    + unfold getAllMedia; simpl. subst id. apply getAllMedia_reset; [done|].
      intros j m Hj Heq. apply Hsto in Hj. rewrite Heq in Hj. congruence.
  - by rewrite bool_decide_eq_false_2 by (by intros [? ?]).
Qed.

Lemma library_eta lib :
  mkLibrary (mediaRepo_ lib) (mkUserManager (users_ (userManager_ lib))) = lib.
Proof. by destruct lib as [repo [users]]. Qed.

(** X16: issue-then-return is a round trip: after a successful
    [issueMediaToUser], [returnMediaFromUser] with the same media and user
    succeeds and gives back the library as it was before. *)
Theorem issue_then_return (mediaId userId : string) (lib : Library) :
  (issueMediaToUser mediaId userId lib).1 = true →
  returnMediaFromUser mediaId userId (issueMediaToUser mediaId userId lib).2
    = (true, lib).
Proof.
  destruct (issueMediaToUser_unfold mediaId userId lib)
    as [(user & media & Huser & _ & Hfree & ->)|[_ ->]]; [|done].
  intros _. simpl. unfold returnMediaFromUser, getUser; simpl.
  rewrite lookup_insert_eq.
  assert (mediaId ∉ issuedMediaIds_ user) as Hnot.
  { intros Hin. apply not_true_iff_false in Hfree. apply Hfree.
    apply isMediaIssued_true. exists userId, user. done. }
  assert (hasMedia mediaId (issueMedia mediaId user) = true) as ->.
  { apply hasMedia_true. simpl. apply elem_of_app. right. by apply list_elem_of_singleton. }
  simpl. f_equal. rewrite insert_insert_eq.
  assert (returnMedia mediaId (issueMedia mediaId user) = user) as ->.
  { unfold returnMedia, issueMedia; simpl. rewrite filter_app.
    rewrite filter_cons_False by (by intros Hne). rewrite filter_nil, app_nil_r.
    rewrite filter_all; [by destruct user|].
    apply Forall_forall. intros issued Hin ->. done. }
  rewrite insert_id by done. apply library_eta.
Qed.

Lemma issue_then_return_witness :
  returnMediaFromUser "B101" "U001" (issueMediaToUser "B101" "U001" (run initial_data)).2
    = (true, run initial_data).
Proof.
  apply (issue_then_return "B101" "U001" (run initial_data)).
  vm_compute. reflexivity.
Defined.

(** X17: [returnMediaFromUser] returns true exactly when the user holds
    the media; afterwards that user does not hold it, every other holding
    is as before, and the repository is untouched. *)
Theorem returnMediaFromUser_removes_one (mediaId userId : string) (lib : Library) :
  ((returnMediaFromUser mediaId userId lib).1 = true
   ↔ holds (userManager_ lib) userId mediaId) ∧
  ¬ holds (userManager_ (returnMediaFromUser mediaId userId lib).2) userId mediaId ∧
  (∀ userId' mediaId', userId' ≠ userId ∨ mediaId' ≠ mediaId →
     holds (userManager_ (returnMediaFromUser mediaId userId lib).2) userId' mediaId'
     ↔ holds (userManager_ lib) userId' mediaId') ∧
  mediaRepo_ (returnMediaFromUser mediaId userId lib).2 = mediaRepo_ lib.
Proof.
  unfold returnMediaFromUser, getUser, holds.
  destruct (users_ (userManager_ lib) !! userId) as [user|] eqn:Huser.
  - destruct (hasMedia mediaId user) eqn:Hhas; simpl.
    + apply hasMedia_true in Hhas. split_and!; [|  | |done].
      * split; [intros _; by exists user|done].
      * intros (usr & Hlook & Hin). rewrite lookup_insert_eq in Hlook.
        injection Hlook as <-. simpl in Hin.
        by apply list_elem_of_filter in Hin as [Hne _].
      * intros userId' mediaId' Hother.
        rewrite lookup_insert. case_decide as Hu.
        -- subst userId'. destruct Hother as [?|Hne]; [done|]. split.
           ++ intros (usr & [= <-] & Hin). simpl in Hin.
              apply list_elem_of_filter in Hin as [_ Hin]. by exists user.
           ++ intros (usr & Hlook & Hin). rewrite Huser in Hlook.
              injection Hlook as <-. eexists. split; [done|]. simpl.
              by apply list_elem_of_filter.
        -- done.
    + assert (mediaId ∉ issuedMediaIds_ user) as Hnot.
      { intros Hin. apply hasMedia_true in Hin. congruence. }
      split_and!; [| |done|done].
      * split; [done|]. intros (usr & Hlook & Hin). congruence.
      * intros (usr & Hlook & Hin). congruence.
  - simpl. split_and!; [| |by intros|done].
    + split; [done|]. by intros (usr & Hlook & _).
    + intros (usr & Hlook & _). congruence.
Qed.

(** X18: [addUser] never replaces a user: it returns true exactly when the
    pointer is not null and no user has the id; then [getUser] finds the
    new user under the id and every other id is as before; otherwise it
    returns false and changes nothing. *)
Theorem addUser_never_replaces (user : User) (manager : InMemoryUserManager) :
  addUser None manager = (false, manager) ∧
  if user_exists (id_ user) manager
  then addUser (Some user) manager = (false, manager)
  else
    (addUser (Some user) manager).1 = true ∧
    getUser (id_ user) (addUser (Some user) manager).2 = Some user ∧
    (∀ id, id ≠ id_ user →
       getUser id (addUser (Some user) manager).2 = getUser id manager).
Proof.
  split; [done|]. unfold user_exists, addUser, getUser.
  destruct (users_ manager !! id_ user) as [old|] eqn:Hid.
  - by rewrite bool_decide_eq_true_2.
  - rewrite bool_decide_eq_false_2 by (by intros [? ?]). simpl. split_and!; [done| |].
    + by rewrite lookup_insert_eq.
    + intros id Hne. by rewrite lookup_insert_ne.
Qed.

(** X19: a media that has just been issued cannot be issued again, to the
    same user or to another: the second [issueMediaToUser] returns false
    and changes nothing. *)
Theorem issue_twice_fails (mediaId userId userId' : string) (lib : Library) :
  (issueMediaToUser mediaId userId lib).1 = true →
  issueMediaToUser mediaId userId' (issueMediaToUser mediaId userId lib).2
    = (false, (issueMediaToUser mediaId userId lib).2).
Proof.
  destruct (issueMediaToUser_unfold mediaId userId lib)
    as [(user & media & Huser & Hmedia & Hfree & ->)|[_ ->]]; [|done].
  intros _. simpl.
  destruct (issueMediaToUser_unfold mediaId userId'
              (mkLibrary (mediaRepo_ lib)
                 (mkUserManager (<[userId := issueMedia mediaId user]>
                                   (users_ (userManager_ lib))))))
    as [(user' & media' & _ & _ & Hfree' & _)|[_ ->]]; [|done].
  exfalso. apply not_true_iff_false in Hfree'. apply Hfree'.
  apply isMediaIssued_true. exists userId, (issueMedia mediaId user). simpl. split.
  - by rewrite lookup_insert_eq.
  - apply elem_of_app. right. by apply list_elem_of_singleton.
Qed.

Lemma issue_twice_fails_witness :
  issueMediaToUser "B101" "U002" (issueMediaToUser "B101" "U001" (run initial_data)).2
    = (false, (issueMediaToUser "B101" "U001" (run initial_data)).2).
Proof.
  apply (issue_twice_fails "B101" "U001" "U002" (run initial_data)).
  vm_compute. reflexivity.
Defined.

End Lab8.

(** ** U.LAB.9: the map of vectors *)
Module Lab9.
Import Std.

(** [std::for_each] visits every entry of the map once and sorts its vector
    in place with the default comparator [<]. *)
Definition sortMapVectors `{Sort} (data : gmap Z (list Z)) : gmap Z (list Z) :=
  sort Z.ltb <$> data.

(** [createDataMap].  [rand k] is the value the [k]-th call of
    [getRandomNumber(1, 100)] returns; key [i] receives the five values
    drawn in its iteration. *)
Definition createDataMap (n : Z) (rand : nat → Z) : gmap Z (list Z) :=
  foldl (λ result i,
           <[Z.of_nat i := (λ j, rand (5 * (i - 1) + j)%nat) <$> seq 0 5]> result)
        ∅ (seq 1 (Z.to_nat n)).

(** What [findDivisibleBySeven] reports on the console. *)
Inductive search_outcome : Type :=
| KeyNotFound
| NoneDivisible
| Found (n : Z).

(** [n % 7 == 0] on [int]. *)
Definition divisible_by_seven (n : Z) : bool := Z.rem n 7 =? 0.

Definition findDivisibleBySeven (data : gmap Z (list Z)) (key : Z) : search_outcome :=
  match data !! key with
  | Some vec =>
      match List.find divisible_by_seven vec with
      | Some n => Found n
      | None => NoneDivisible
      end
  | None => KeyNotFound
  end.

(** *** Properties of the map utilities *)

Example sortMapVectors_small :
  @sortMapVectors insertion {[ 1 := [42; 7; 100; 7]; 2 := [] ]} !! 1
    = Some [7; 7; 42; 100].
Proof. vm_compute. reflexivity. Qed.

Lemma sorted_by_ltb_ascending (l : list Z) :
  sorted_by Z.ltb l → StronglySorted Z.le l.
Proof.
  unfold sorted_by. induction 1 as [|x l Hl IH Hx]; constructor; [done|].
  eapply Forall_impl; [exact Hx|]. simpl. lia.
Qed.

(** C7: [sortMapVectors] keeps the keys, and under every key it leaves a
    vector in ascending order that is a permutation of the one held
    before. *)
Theorem sortMapVectors_sorts_each_vector `{Sort} (data : gmap Z (list Z)) :
  dom (sortMapVectors data) = dom data ∧
  ∀ key : Z,
    match data !! key with
    | Some vec =>
        ∃ vec', sortMapVectors data !! key = Some vec' ∧
                StronglySorted Z.le vec' ∧ vec' ≡ₚ vec
    | None => sortMapVectors data !! key = None
    end.
Proof.
  unfold sortMapVectors. split; [apply dom_fmap_L|].
  intros key. rewrite lookup_fmap.
  destruct (data !! key) as [vec|]; simpl; [|done].
  exists (sort Z.ltb vec). split_and!; [done| |].
  - apply sorted_by_ltb_ascending, sort_sorted, swo_ltb.
  - apply sort_perm, swo_ltb.
Qed.

(** The same with insertion sort as [std::sort], on a map of two keys. *)
Lemma sortMapVectors_sorts_each_vector_witness :
  dom (@sortMapVectors insertion {[ 1 := [42; 7; 100; 7]; 2 := [] ]})
    = dom ({[ 1 := [42; 7; 100; 7]; 2 := [] ]} : gmap Z (list Z)) ∧
  ∀ key : Z,
    match ({[ 1 := [42; 7; 100; 7]; 2 := [] ]} : gmap Z (list Z)) !! key with
    | Some vec =>
        ∃ vec',
          @sortMapVectors insertion {[ 1 := [42; 7; 100; 7]; 2 := [] ]} !! key
            = Some vec' ∧
          StronglySorted Z.le vec' ∧ vec' ≡ₚ vec
    | None =>
        @sortMapVectors insertion {[ 1 := [42; 7; 100; 7]; 2 := [] ]} !! key = None
    end.
Proof.
  exact (@sortMapVectors_sorts_each_vector insertion {[ 1 := [42; 7; 100; 7]; 2 := [] ]}).
Defined.

(** *** Further properties of the map utilities *)

Lemma createDataMap_lookup (count : nat) (rand : nat → Z) (key : Z) :
  foldl (λ result i,
           <[Z.of_nat i := (λ j, rand (5 * (i - 1) + j)%nat) <$> seq 0 5]> result)
        (∅ : gmap Z (list Z)) (seq 1 count) !! key
  = if bool_decide (1 ≤ key ≤ Z.of_nat count)
    then Some ((λ j, rand (5 * (Z.to_nat key - 1) + j)%nat) <$> seq 0 5)
    else None.
Proof.
  induction count as [|count IH].
  - simpl. rewrite lookup_empty. by rewrite bool_decide_eq_false_2 by lia.
  - rewrite (seq_S count 1), foldl_snoc. cbn [Nat.add].
    destruct (decide (key = Z.of_nat (S count))) as [->|Hne].
    + rewrite lookup_insert_eq, bool_decide_eq_true_2 by lia.
      by rewrite Nat2Z.id.
    + rewrite lookup_insert_ne by done. rewrite IH.
      case_bool_decide; case_bool_decide; try done; lia.
Qed.

(** X20: [createDataMap(n)] holds exactly the keys 1 to [n] (none when
    [n] is not positive), each with a vector of five numbers; the numbers
    lie between 1 and 100 when the draws do. *)
Theorem createDataMap_keys (n : Z) (rand : nat → Z) :
  (∀ key, 1 ≤ key ≤ n →
     ∃ vec, createDataMap n rand !! key = Some vec ∧ length vec = 5%nat) ∧
  (∀ key, ¬ (1 ≤ key ≤ n) → createDataMap n rand !! key = None) ∧
  ((∀ k, 1 ≤ rand k ≤ 100) →
   ∀ key vec, createDataMap n rand !! key = Some vec →
              Forall (λ x, 1 ≤ x ≤ 100) vec).
Proof.
  unfold createDataMap. split_and!.
  - intros key Hkey. rewrite createDataMap_lookup.
    rewrite bool_decide_eq_true_2 by lia. by eexists.
  - intros key Hkey. rewrite createDataMap_lookup.
    by rewrite bool_decide_eq_false_2 by lia.
  - intros Hrand key vec. rewrite createDataMap_lookup.
    case_bool_decide; [|done]. intros [= <-].
    repeat constructor; apply Hrand.
Qed.

Lemma sort_ltb_unique (S1 S2 : Sort) (l : list Z) :
  @sort S1 Z Z.ltb l = @sort S2 Z Z.ltb l.
Proof.
  apply (StronglySorted_unique Z.le).
  - apply sorted_by_ltb_ascending, sort_sorted, swo_ltb.
  - apply sorted_by_ltb_ascending, sort_sorted, swo_ltb.
  - by rewrite !(sort_perm _ _ _ swo_ltb).
Qed.

Lemma sort_ltb_idempotent `{Sort} (l : list Z) :
  sort Z.ltb (sort Z.ltb l) = sort Z.ltb l.
Proof.
  apply (StronglySorted_unique Z.le).
  - apply sorted_by_ltb_ascending, sort_sorted, swo_ltb.
  - apply sorted_by_ltb_ascending, sort_sorted, swo_ltb.
  - apply sort_perm, swo_ltb.
Qed.

(** X21: the map [sortMapVectors] leaves does not depend on how
    [std::sort] orders equal elements: any two implementations meeting the
    contract give the same map; and sorting an already sorted map changes
    nothing. *)
Theorem sortMapVectors_canonical (S1 S2 : Sort) (data : gmap Z (list Z)) :
  @sortMapVectors S1 data = @sortMapVectors S2 data ∧
  @sortMapVectors S1 (@sortMapVectors S1 data) = @sortMapVectors S1 data.
Proof.
  unfold sortMapVectors. split.
  - apply map_fmap_ext. intros key vec _. apply sort_ltb_unique.
  - rewrite <- map_fmap_compose. apply map_fmap_ext. intros key vec _. simpl.
    apply sort_ltb_idempotent.
Qed.

Lemma divisible_by_seven_spec n : divisible_by_seven n = true ↔ (7 | n).
Proof.
  unfold divisible_by_seven. rewrite Z.eqb_eq. by apply Z.rem_divide.
Qed.

Lemma find_sorted_least (p : Z → bool) (l : list Z) n :
  StronglySorted Z.le l → List.find p l = Some n →
  n ∈ l ∧ p n = true ∧ Forall (λ m, p m = true → n ≤ m) l.
Proof.
  induction 1 as [|x l Hl IH Hx]; simpl; [done|].
  destruct (p x) eqn:Hp.
  - intros [= <-]. split_and!; [by left|done|].
    constructor; [by intros _|].
    eapply Forall_impl; [exact Hx|]. by intros m Hm _.
  - intros Hfind. destruct (IH Hfind) as (Hin & Hpn & Hleast).
    split_and!; [by right|done|].
    constructor; [|done]. intros Hpx. congruence.
Qed.

(** X22: after [sortMapVectors], [findDivisibleBySeven] reports the least
    multiple of 7 of the vector stored under the key, reports that there
    is none exactly when the vector has none, and reports a missing key
    exactly when the key is missing. *)
Theorem findDivisibleBySeven_after_sort `{Sort} (data : gmap Z (list Z)) (key : Z) :
  match data !! key with
  | None => findDivisibleBySeven (sortMapVectors data) key = KeyNotFound
  | Some vec =>
      match findDivisibleBySeven (sortMapVectors data) key with
      | Found n => n ∈ vec ∧ (7 | n) ∧ Forall (λ m, (7 | m) → n ≤ m) vec
      | NoneDivisible => Forall (λ m, ¬ (7 | m)) vec
      | KeyNotFound => False
      end
  end.
Proof.
  unfold findDivisibleBySeven, sortMapVectors. rewrite lookup_fmap.
  destruct (data !! key) as [vec|]; simpl; [|done].
  pose proof (sort_perm _ Z.ltb vec swo_ltb) as Hperm.
  pose proof (sorted_by_ltb_ascending _ (sort_sorted _ Z.ltb vec swo_ltb)) as Hsorted.
  destruct (List.find divisible_by_seven (sort Z.ltb vec)) as [n|] eqn:Hfind.
  - destruct (find_sorted_least _ _ _ Hsorted Hfind) as (Hin & Hdiv & Hleast).
    rewrite Hperm in Hin, Hleast. split_and!; [done|by apply divisible_by_seven_spec|].
    eapply Forall_impl; [exact Hleast|]. intros m Hm Hdivm. simpl in Hm.
    by apply Hm, divisible_by_seven_spec.
  - rewrite <- Hperm. apply Forall_forall. intros m Hin Hdiv.
    apply divisible_by_seven_spec in Hdiv. apply list_elem_of_In in Hin.
    pose proof (List.find_none _ _ Hfind m Hin). congruence.
Qed.

End Lab9.

(** ** U.LAB.10: the task manager *)
Module Lab10.
Import Std.

(** The exceptions of the [TaskManagerException] hierarchy, each with the
    argument its constructor receives. *)
Inductive exn : Type :=
| DuplicateTaskError (description : string)
| TaskNotFoundError_index (index : Z)
| TaskNotFoundError_text (description : string)
| NoTasksError.

Record Task : Type := mkTask {
  description : string;
  priority : Z;
  isCompleted : bool
}.

(** [Task(desc, prio)]: the member initialiser leaves [isCompleted] false. *)
Definition Task_new (desc : string) (prio : Z) : Task :=
  mkTask desc prio false.

Record TaskManager : Type := mkTaskManager { tasks_ : list Task }.

(** A default-constructed manager. *)
Definition TaskManager_new : TaskManager := mkTaskManager [].

Definition Method (A : Type) : Type := M TaskManager exn A.

Definition findTask (desc : string) (tm : TaskManager) : option nat :=
  find_if (λ t, String.eqb (description t) desc) (tasks_ tm).

(** The comparator of [sortTasks]: higher priority first. *)
Definition higher_priority (t1 t2 : Task) : bool :=
  priority t1 >? priority t2.

Definition sortTasks `{Sort} : Method unit :=
  tm ← get; put (mkTaskManager (sort higher_priority (tasks_ tm))).

Definition addTask `{Sort} (desc : string) (prio : Z) : Method unit :=
  tm ← get;
  match findTask desc tm with
  | Some _ => throw (DuplicateTaskError desc)
  | None =>
      put (mkTaskManager (tasks_ tm ++ [Task_new desc prio]));;
      sortTasks
  end.

(** [index >= tasks_.size()] is the case where the lookup finds nothing. *)
Definition completeTask (index : nat) : Method unit :=
  tm ← get;
  match tasks_ tm !! index with
  | None => throw (TaskNotFoundError_index (to_int (Z.of_nat index)))
  | Some task =>
      if isCompleted task then
        throw (TaskNotFoundError_text
                 ("Task '" +:+ description task +:+ "' is already marked completed."))
      else
        put (mkTaskManager
               (<[index := mkTask (description task) (priority task) true]> (tasks_ tm)));;
        tm' ← get;
        put (mkTaskManager (delete index (tasks_ tm')))
  end.

Definition getNextTask : Method Task :=
  tm ← get;
  match tasks_ tm with
  | [] => throw NoTasksError
  | front :: _ => mret front
  end.

Definition popNextTask : Method Task :=
  tm ← get;
  match tasks_ tm with
  | [] => throw NoTasksError
  | nextTask :: _ =>
      put (mkTaskManager (delete 0%nat (tasks_ tm)));;
      mret nextTask
  end.

(** What [displayTasks] writes, item by item: the header with the count, the
    notice for an empty list, one line per task (index, priority, description
    and the completion marker), the closing rule. *)
Inductive Output : Type :=
| OutHeader (count : nat)
| OutEmpty
| OutTask (index : nat) (prio : Z) (desc : string) (marker : string)
| OutRule.

Definition displayTasks (tm : TaskManager) : list Output :=
  OutHeader (length (tasks_ tm))
  :: (if tasks_ tm is [] then [OutEmpty] else [])
  ++ imap (λ i t, OutTask i (priority t) (description t)
                    (if isCompleted t then " (COMPLETED)" else ""))
          (tasks_ tm)
  ++ [OutRule].

Definition marker_of (o : Output) : string :=
  match o with
  | OutTask _ _ _ marker => marker
  | _ => ""
  end.

(** The public operations, and the manager after a sequence of them
    starting from a new manager.  A call that throws is caught by the caller
    and the manager lives on in the state the call left it in. *)
Inductive op : Type :=
| AddTask (desc : string) (prio : Z)
| CompleteTask (index : nat)
| GetNextTask
| PopNextTask.

Definition call `{Sort} (o : op) : TaskManager → TaskManager :=
  match o with
  | AddTask desc prio => exec (addTask desc prio)
  | CompleteTask index => exec (completeTask index)
  | GetNextTask => exec getNextTask
  | PopNextTask => exec popNextTask
  end.

Definition run `{Sort} (ops : list op) : TaskManager :=
  foldl (λ tm o, call o tm) TaskManager_new ops.

(** The manager after a sequence of [addTask] calls only. *)
Definition add_all `{Sort} (adds : list (string * Z)) : TaskManager :=
  run (map (λ a, AddTask a.1 a.2) adds).

(** Which handler of [taskExecutor] ends the loop: the one for
    [NoTasksError], or the one for any other [TaskManagerException]. *)
Inductive shutdown : Type :=
| Graceful
| Unexpected.

(** [taskExecutor]: the tasks it reports as executing, in order, the
    handler that ended the loop and the manager it leaves.  The loop is
    [while (true)]; [fuel] bounds the number of iterations and [None]
    means the bound was reached. *)
Fixpoint taskExecutor (fuel : nat) (tm : TaskManager) :
    option (list Task * shutdown * TaskManager) :=
  match fuel with
  | O => None
  | S fuel' =>
      match popNextTask tm with
      | (Ok currentTask, tm') =>
          match taskExecutor fuel' tm' with
          | Some (executed, handler, final) =>
              Some (currentTask :: executed, handler, final)
          | None => None
          end
      | (Throw NoTasksError, tm') => Some ([], Graceful, tm')
      | (Throw _, tm') => Some ([], Unexpected, tm')
      end
  end.

(** The calls of [main] up to the first [displayTasks], the duplicate
    included. *)
Definition main_calls : list op :=
  [ AddTask "Review Code" 80; AddTask "Fix Critical Bug" 100;
    AddTask "Write Documentation" 20; AddTask "Refactor Legacy Module" 50;
    AddTask "Review Code" 80 ].

(** What every reachable manager satisfies: the tasks are in descending
    order of priority and none of them is completed. *)
Definition wf (tm : TaskManager) : Prop :=
  sorted_by higher_priority (tasks_ tm) ∧
  Forall (λ t, isCompleted t = false) (tasks_ tm).

(** *** Properties of the task manager *)

Example main_tasks :
  tasks_ (@run insertion main_calls) =
    [ Task_new "Fix Critical Bug" 100; Task_new "Review Code" 80;
      Task_new "Refactor Legacy Module" 50; Task_new "Write Documentation" 20 ].
Proof. reflexivity. Qed.

Example main_completeTask_1 :
  completeTask 1 (@run insertion main_calls) =
    (Ok (), mkTaskManager
              [ Task_new "Fix Critical Bug" 100;
                Task_new "Refactor Legacy Module" 50;
                Task_new "Write Documentation" 20 ]).
Proof. reflexivity. Qed.

Example main_completeTask_10 :
  completeTask 10 (@run insertion main_calls) =
    (Throw (TaskNotFoundError_index 10), @run insertion main_calls).
Proof. reflexivity. Qed.

Lemma swo_higher_priority : StrictWeakOrder higher_priority.
Proof. exact (swo_on priority Z.gtb swo_gtb). Qed.

Lemma findTask_None desc tm :
  findTask desc tm = None ↔ ¬ Exists (λ t, description t = desc) (tasks_ tm).
Proof.
  unfold findTask. rewrite find_if_None, <- Forall_Exists_neg.
  apply Forall_iff. intros t. rewrite <- String.eqb_neq. done.
Qed.

(** [addTask], with the monad unfolded. *)
Lemma addTask_unfold `{Sort} desc prio tm :
  addTask desc prio tm =
    match findTask desc tm with
    | Some _ => (Throw (DuplicateTaskError desc), tm)
    | None =>
        (Ok (), mkTaskManager (sort higher_priority (tasks_ tm ++ [Task_new desc prio])))
    end.
Proof. unfold addTask, mbind, M_bind, bind; simpl. by destruct (findTask desc tm). Qed.

Lemma delete_insert_same {A} (l : list A) i x : delete i (<[i:=x]> l) = delete i l.
Proof.
  revert i. induction l as [|y l IH]; intros [|i]; simpl; try done.
  by rewrite IH.
Qed.

(** [completeTask], with the monad unfolded: the flag it sets is erased
    together with the task. *)
Lemma completeTask_unfold index tm :
  completeTask index tm =
    match tasks_ tm !! index with
    | None => (Throw (TaskNotFoundError_index (to_int (Z.of_nat index))), tm)
    | Some task =>
        if isCompleted task then
          (Throw (TaskNotFoundError_text
                    ("Task '" +:+ description task +:+ "' is already marked completed.")),
           tm)
        else (Ok (), mkTaskManager (delete index (tasks_ tm)))
    end.
Proof.
  unfold completeTask, mbind, M_bind, bind; simpl.
  destruct (tasks_ tm !! index) as [task|]; [|done].
  destruct (isCompleted task); [done|]. simpl. by rewrite delete_insert_same.
Qed.

Lemma wf_new : wf TaskManager_new.
Proof. split; constructor. Qed.

Lemma wf_delete tm i : wf tm → wf (mkTaskManager (delete i (tasks_ tm))).
Proof.
  intros [Hs Hc]. split; simpl.
  - by apply sorted_by_delete.
  - by apply Forall_delete.
Qed.

Lemma wf_call `{Sort} o tm : wf tm → wf (call o tm).
Proof.
  intros Hwf. destruct o as [desc prio|index| |]; unfold call, exec.
  - rewrite addTask_unfold. destruct (findTask desc tm); [done|].
    destruct Hwf as [_ Hc]. split; simpl.
    + apply sort_sorted, swo_higher_priority.
    + rewrite (sort_perm _ _ _ swo_higher_priority).
      apply Forall_app. split; [done|]. by repeat constructor.
  - rewrite completeTask_unfold.
    destruct (tasks_ tm !! index) as [task|]; [|done].
    destruct (isCompleted task); [done|]. by apply wf_delete.
  - unfold getNextTask, mbind, M_bind, bind; simpl.
    by destruct (tasks_ tm).
  - unfold popNextTask, mbind, M_bind, bind; simpl.
    destruct (tasks_ tm) eqn:Htm; [done|].
    rewrite <- Htm. by apply wf_delete.
Qed.

Lemma wf_run `{Sort} ops : wf (run ops).
Proof.
  unfold run. induction ops as [|o ops IH] using rev_ind.
  - apply wf_new.
  - rewrite foldl_snoc. by apply wf_call.
Qed.

(** In a list sorted by [higher_priority] the front has the greatest
    priority. *)
Lemma sorted_front_highest t rest :
  sorted_by higher_priority (t :: rest) →
  Forall (λ u, priority u ≤ priority t) (t :: rest).
Proof.
  intros Hs. apply StronglySorted_inv in Hs as [_ Ht].
  constructor; [lia|].
  eapply Forall_impl; [exact Ht|]. unfold higher_priority. simpl. lia.
Qed.

(** C1: in every manager reached by [addTask] calls the tasks are stored in
    descending order of priority; [getNextTask] and [popNextTask] throw
    [NoTasksError] when no task is stored and otherwise
    return the front task, whose priority is greater than or equal to the
    priority of every stored task; [getNextTask] leaves the manager as it
    is and [popNextTask] erases the returned task. *)
Theorem next_task_has_highest_priority `{Sort} (adds : list (string * Z)) :
  sorted_by higher_priority (tasks_ (add_all adds)) ∧
  ((tasks_ (add_all adds) = [] ∧
   getNextTask (add_all adds) = (Throw NoTasksError, add_all adds) ∧
   popNextTask (add_all adds) = (Throw NoTasksError, add_all adds))
  ∨
  (∃ t rest,
     tasks_ (add_all adds) = t :: rest ∧
     getNextTask (add_all adds) = (Ok t, add_all adds) ∧
     popNextTask (add_all adds) = (Ok t, mkTaskManager rest) ∧
     Forall (λ u, priority u ≤ priority t) (tasks_ (add_all adds)))).
Proof.
  unfold add_all.
  pose proof (wf_run (map (λ a, AddTask a.1 a.2) adds)) as [Hs _].
  split; [done|].
  destruct (run _) as [tasks]; simpl in *.
  destruct tasks as [|t rest]; [by left|right].
  exists t, rest. repeat split. by apply sorted_front_highest.
Qed.

(** The same with insertion sort as [std::sort], after two [addTask] calls. *)
Lemma next_task_has_highest_priority_witness :
  sorted_by higher_priority
    (tasks_ (@add_all insertion [("Review Code", 80); ("Fix Critical Bug", 100)])) ∧
  ((tasks_ (@add_all insertion [("Review Code", 80); ("Fix Critical Bug", 100)]) = [] ∧
    getNextTask (@add_all insertion [("Review Code", 80); ("Fix Critical Bug", 100)])
      = (Throw NoTasksError,
         @add_all insertion [("Review Code", 80); ("Fix Critical Bug", 100)]) ∧
    popNextTask (@add_all insertion [("Review Code", 80); ("Fix Critical Bug", 100)])
      = (Throw NoTasksError,
         @add_all insertion [("Review Code", 80); ("Fix Critical Bug", 100)]))
   ∨
   (∃ t rest,
      tasks_ (@add_all insertion [("Review Code", 80); ("Fix Critical Bug", 100)])
        = t :: rest ∧
      getNextTask (@add_all insertion [("Review Code", 80); ("Fix Critical Bug", 100)])
        = (Ok t, @add_all insertion [("Review Code", 80); ("Fix Critical Bug", 100)]) ∧
      popNextTask (@add_all insertion [("Review Code", 80); ("Fix Critical Bug", 100)])
        = (Ok t, mkTaskManager rest) ∧
      Forall (λ u, priority u ≤ priority t)
        (tasks_ (@add_all insertion [("Review Code", 80); ("Fix Critical Bug", 100)])))).
Proof.
  exact (@next_task_has_highest_priority insertion
           [("Review Code", 80); ("Fix Critical Bug", 100)]).
Defined.

(** C2: [addTask] throws [DuplicateTaskError] if and only if a stored task
    has the same description, and then leaves the stored list as it was; it
    throws nothing else; when it does not throw, the stored list is a
    rearrangement of the old list and one new task with the given
    description and priority. *)
Theorem addTask_duplicate_or_added `{Sort} (desc : string) (prio : Z) (tm : TaskManager) :
  ((addTask desc prio tm).1 = Throw (DuplicateTaskError desc)
     ↔ Exists (λ t, description t = desc) (tasks_ tm)) ∧
  (∀ e, (addTask desc prio tm).1 = Throw e →
        e = DuplicateTaskError desc ∧ (addTask desc prio tm).2 = tm) ∧
  ((addTask desc prio tm).1 = Ok () →
     tasks_ (addTask desc prio tm).2 ≡ₚ tasks_ tm ++ [Task_new desc prio]) ∧
  ((addTask desc prio tm).1 = Ok ()
     ↔ ¬ Exists (λ t, description t = desc) (tasks_ tm)).
Proof.
  rewrite addTask_unfold. rewrite <- findTask_None.
  assert (Exists (λ t, description t = desc) (tasks_ tm)
            ↔ findTask desc tm ≠ None) as ->.
  { rewrite findTask_None. split; [tauto|]. apply dec_stable. }
  destruct (findTask desc tm) as [i|]; simpl.
  - split_and!; try done. by intros e [= <-].
  - split_and!; try done.
    intros _. apply sort_perm, swo_higher_priority.
Qed.

(** The same with insertion sort as [std::sort], at the duplicate of [main]. *)
Lemma addTask_duplicate_or_added_witness :
  ((@addTask insertion "Review Code" 5 (@run insertion main_calls)).1
     = Throw (DuplicateTaskError "Review Code")
   ↔ Exists (λ t, description t = "Review Code") (tasks_ (@run insertion main_calls))) ∧
  (∀ e, (@addTask insertion "Review Code" 5 (@run insertion main_calls)).1 = Throw e →
        e = DuplicateTaskError "Review Code" ∧
        (@addTask insertion "Review Code" 5 (@run insertion main_calls)).2
          = @run insertion main_calls) ∧
  ((@addTask insertion "Review Code" 5 (@run insertion main_calls)).1 = Ok () →
     tasks_ (@addTask insertion "Review Code" 5 (@run insertion main_calls)).2
       ≡ₚ tasks_ (@run insertion main_calls) ++ [Task_new "Review Code" 5]) ∧
  ((@addTask insertion "Review Code" 5 (@run insertion main_calls)).1 = Ok ()
   ↔ ¬ Exists (λ t, description t = "Review Code") (tasks_ (@run insertion main_calls))).
Proof.
  exact (@addTask_duplicate_or_added insertion "Review Code" 5 (@run insertion main_calls)).
Defined.

(** C8: after any sequence of public operations no stored task is
    completed; hence [completeTask] never takes its branch for an already
    completed task, and [displayTasks] writes no completion marker. *)
Theorem no_completed_task_is_stored `{Sort} (ops : list op) :
  Forall (λ t, isCompleted t = false) (tasks_ (run ops)) ∧
  (∀ index text,
     (completeTask index (run ops)).1 ≠ Throw (TaskNotFoundError_text text)) ∧
  Forall (λ o, marker_of o = "") (displayTasks (run ops)).
Proof.
  pose proof (wf_run ops) as [_ Hc]. split; [done|]. split.
  - intros index text. rewrite completeTask_unfold.
    destruct (tasks_ (run ops) !! index) as [task|] eqn:Hi; [|done].
    rewrite (proj1 (Forall_lookup _ _) Hc _ _ Hi). done.
  - unfold displayTasks. constructor; [done|].
    apply Forall_app. split; [by destruct (tasks_ (run ops)); repeat constructor|].
    apply Forall_app. split; [|by repeat constructor].
    apply Forall_lookup. intros i o Ho.
    apply list_lookup_imap_Some in Ho as (t & Ht & ->). simpl.
    by rewrite (proj1 (Forall_lookup _ _) Hc _ _ Ht).
Qed.

(** The same with insertion sort as [std::sort], after the calls of [main]
    followed by a completion and a pop. *)
Lemma no_completed_task_is_stored_witness :
  Forall (λ t, isCompleted t = false)
    (tasks_ (@run insertion (main_calls ++ [CompleteTask 1; PopNextTask]))) ∧
  (∀ index text,
     (completeTask index (@run insertion (main_calls ++ [CompleteTask 1; PopNextTask]))).1
       ≠ Throw (TaskNotFoundError_text text)) ∧
  Forall (λ o, marker_of o = "")
    (displayTasks (@run insertion (main_calls ++ [CompleteTask 1; PopNextTask]))).
Proof.
  exact (@no_completed_task_is_stored insertion
           (main_calls ++ [CompleteTask 1; PopNextTask])).
Defined.

(** *** Further properties of the task manager *)

Lemma run_snoc `{Sort} ops o : run (ops ++ [o]) = call o (run ops).
Proof. unfold run. by rewrite foldl_snoc. Qed.

Lemma unique_descriptions_call `{Sort} o tm :
  NoDup (description <$> tasks_ tm) → NoDup (description <$> tasks_ (call o tm)).
Proof.
  intros Huniq. destruct o as [desc prio|index| |]; unfold call, exec.
  - rewrite addTask_unfold. destruct (findTask desc tm) eqn:Hfind; [done|]. simpl.
    rewrite (sort_perm _ _ _ swo_higher_priority), fmap_app. simpl.
    rewrite <- Permutation_cons_append. constructor; [|done].
    apply findTask_None in Hfind. intros Hin. apply Hfind.
    apply list_elem_of_fmap in Hin as (t & Hdesc & Hin).
    apply Exists_exists. by exists t.
  - rewrite completeTask_unfold.
    destruct (tasks_ tm !! index) as [task|]; [|done].
    destruct (isCompleted task); [done|]. simpl.
    eapply sublist_NoDup; [exact Huniq|]. apply fmap_sublist, sublist_delete.
  - unfold getNextTask, mbind, M_bind, bind; simpl.
    destruct (tasks_ tm) eqn:Htm; simpl; by rewrite Htm.
  - unfold popNextTask, mbind, M_bind, bind; simpl.
    destruct (tasks_ tm) as [|t rest] eqn:Htm; simpl; [by rewrite Htm|].
    rewrite fmap_cons in Huniq. by apply NoDup_cons in Huniq as [_ ?].
Qed.

(** X23: after any sequence of public operations no two stored tasks have
    the same description. *)
Theorem descriptions_unique `{Sort} (ops : list op) :
  NoDup (description <$> tasks_ (run ops)).
Proof.
  induction ops as [|o ops IH] using rev_ind.
  - constructor.
  - rewrite run_snoc. by apply unique_descriptions_call.
Qed.

(** X24: after any sequence of public operations, [completeTask] with an
    index outside the list throws [TaskNotFoundError] for that index and
    changes nothing; with an index inside it erases exactly the task at
    that index and keeps the others in their order. *)
Theorem completeTask_bounds `{Sort} (ops : list op) (index : nat) :
  match tasks_ (run ops) !! index with
  | Some task =>
      (index < length (tasks_ (run ops)))%nat ∧
      completeTask index (run ops)
        = (Ok (), mkTaskManager (delete index (tasks_ (run ops)))) ∧
      tasks_ (run ops)
        = take index (tasks_ (run ops)) ++ task :: drop (S index) (tasks_ (run ops)) ∧
      delete index (tasks_ (run ops))
        = take index (tasks_ (run ops)) ++ drop (S index) (tasks_ (run ops))
  | None =>
      (length (tasks_ (run ops)) ≤ index)%nat ∧
      completeTask index (run ops)
        = (Throw (TaskNotFoundError_index (to_int (Z.of_nat index))), run ops)
  end.
Proof.
  pose proof (wf_run ops) as [_ Hc]. rewrite completeTask_unfold.
  destruct (tasks_ (run ops) !! index) as [task|] eqn:Hi.
  - rewrite (proj1 (Forall_lookup _ _) Hc _ _ Hi). split_and!.
    + by eapply lookup_lt_Some.
    + done.
    + by rewrite take_drop_middle.
    + apply delete_take_drop.
  - split; [|done]. by apply lookup_ge_None.
Qed.

(** X25: a task that [addTask] has stored is in the list, which is one
    longer, and a second [addTask] with the same description, whatever the
    priority, throws [DuplicateTaskError] and changes nothing. *)
Theorem addTask_then_duplicate `{Sort} (desc : string) (prio prio' : Z) (tm : TaskManager) :
  (addTask desc prio tm).1 = Ok () →
  Task_new desc prio ∈ tasks_ (addTask desc prio tm).2 ∧
  length (tasks_ (addTask desc prio tm).2) = S (length (tasks_ tm)) ∧
  addTask desc prio' (addTask desc prio tm).2
    = (Throw (DuplicateTaskError desc), (addTask desc prio tm).2).
Proof.
  rewrite addTask_unfold. destruct (findTask desc tm) eqn:Hfind; [done|]. simpl.
  intros _.
  pose proof (sort_perm _ higher_priority (tasks_ tm ++ [Task_new desc prio])
                swo_higher_priority) as Hperm.
  assert (Task_new desc prio ∈ sort higher_priority (tasks_ tm ++ [Task_new desc prio]))
    as Hin.
  { rewrite Hperm. apply elem_of_app. right. by apply list_elem_of_singleton. }
  split_and!; [done| |].
  - rewrite Hperm, length_app. simpl. lia.
  - rewrite addTask_unfold.
    destruct (findTask desc (mkTaskManager _)) eqn:Hfind'; [done|].
    apply findTask_None in Hfind'. exfalso. apply Hfind'.
    apply Exists_exists. by exists (Task_new desc prio).
Qed.

Lemma addTask_then_duplicate_witness :
  Task_new "Deploy" 70 ∈ tasks_ (@addTask insertion "Deploy" 70 (@run insertion main_calls)).2 ∧
  length (tasks_ (@addTask insertion "Deploy" 70 (@run insertion main_calls)).2)
    = S (length (tasks_ (@run insertion main_calls))) ∧
  @addTask insertion "Deploy" 5 (@addTask insertion "Deploy" 70 (@run insertion main_calls)).2
    = (Throw (DuplicateTaskError "Deploy"),
       (@addTask insertion "Deploy" 70 (@run insertion main_calls)).2).
Proof.
  apply (@addTask_then_duplicate insertion "Deploy" 70 5 (@run insertion main_calls)).
  reflexivity.
Defined.

(** X26: a task added with a priority above that of every stored task is
    the next task: [getNextTask] returns it right after the [addTask]. *)
Theorem addTask_highest_is_next `{Sort} (desc : string) (prio : Z) (tm : TaskManager) :
  (addTask desc prio tm).1 = Ok () →
  Forall (λ t, priority t < prio) (tasks_ tm) →
  getNextTask (addTask desc prio tm).2
    = (Ok (Task_new desc prio), (addTask desc prio tm).2).
Proof.
  rewrite addTask_unfold. destruct (findTask desc tm) eqn:Hfind; [done|]. simpl.
  intros _ Hlower.
  pose proof (sort_perm _ higher_priority (tasks_ tm ++ [Task_new desc prio])
                swo_higher_priority) as Hperm.
  pose proof (sort_sorted _ higher_priority (tasks_ tm ++ [Task_new desc prio])
                swo_higher_priority) as Hsorted.
  unfold getNextTask, mbind, M_bind, bind; simpl.
  destruct (sort higher_priority (tasks_ tm ++ [Task_new desc prio]))
    as [|front rest] eqn:Hsort.
  { symmetry in Hperm. apply Permutation_nil_r in Hperm. by destruct (tasks_ tm). }
  unfold mret, M_ret, ret. do 2 f_equal.
  assert (front ∈ tasks_ tm ++ [Task_new desc prio]) as Hfront.
  { rewrite <- Hperm. by left. }
  apply elem_of_app in Hfront as [Hold|Hnew]; [|by apply list_elem_of_singleton in Hnew].
  exfalso.
  pose proof (proj1 (Forall_forall _ _) Hlower _ Hold) as Hlt. simpl in Hlt.
  pose proof (sorted_front_highest _ _ Hsorted) as Hhigh.
  assert (Task_new desc prio ∈ front :: rest) as Hin.
  { rewrite Hperm. apply elem_of_app. right. by apply list_elem_of_singleton. }
  pose proof (proj1 (Forall_forall _ _) Hhigh _ Hin) as Hle. simpl in Hle. lia.
Qed.

Lemma addTask_highest_is_next_witness :
  getNextTask (@addTask insertion "Hotfix" 200 (@run insertion main_calls)).2
    = (Ok (Task_new "Hotfix" 200),
       (@addTask insertion "Hotfix" 200 (@run insertion main_calls)).2).
Proof.
  apply (@addTask_highest_is_next insertion "Hotfix" 200 (@run insertion main_calls)).
  - reflexivity.
  - repeat constructor.
Defined.

Lemma taskExecutor_drains fuel tasks :
  (length tasks < fuel)%nat →
  taskExecutor fuel (mkTaskManager tasks) = Some (tasks, Graceful, TaskManager_new).
Proof.
  revert tasks. induction fuel as [|fuel IH]; intros tasks Hfuel; [lia|].
  destruct tasks as [|t rest]; [done|].
  cbn [taskExecutor]. unfold popNextTask, mbind, M_bind, bind; simpl.
  rewrite IH; [done|]. simpl in Hfuel. lia.
Qed.

(** X27: [taskExecutor] terminates: with more iterations allowed than
    tasks stored it executes every stored task once, in the stored order,
    which after any sequence of public operations is by descending
    priority; it ends in the handler for [NoTasksError] and leaves the
    manager empty. *)
Theorem taskExecutor_executes_all `{Sort} (ops : list op) (fuel : nat) :
  (length (tasks_ (run ops)) < fuel)%nat →
  taskExecutor fuel (run ops) = Some (tasks_ (run ops), Graceful, TaskManager_new) ∧
  sorted_by higher_priority (tasks_ (run ops)).
Proof.
  intros Hfuel. pose proof (wf_run ops) as [Hsorted _]. split; [|done].
  destruct (run ops) as [tasks]. by apply taskExecutor_drains.
Qed.

Lemma taskExecutor_executes_all_witness :
  taskExecutor 5 (@run insertion main_calls)
    = Some (tasks_ (@run insertion main_calls), Graceful, TaskManager_new) ∧
  sorted_by higher_priority (tasks_ (@run insertion main_calls)).
Proof.
  apply (@taskExecutor_executes_all insertion main_calls 5).
  vm_compute. lia.
Defined.

End Lab10.
